(** * FixedArena: a fixed-capacity bump arena with a destructor ledger

    Shallow embedding of [src/fixed-arena/main.cpp].  The class template
    [FixedArena<N, MaxDtors>] owns a byte buffer of [N] bytes, a bump offset
    and a fixed array of [MaxDtors] destructor entries.  [std::size_t] values
    are integers modulo [2 ^ w]; addresses are integers; the array of
    destructor entries is a list updated by index. *)

From Stdlib Require Import ZArith Lia Ascii.
From stdpp Require Import base list numbers strings functions gmap.

Local Open Scope Z_scope.

(** ** Word arithmetic *)

(** Unsigned wrap-around of [std::size_t] arithmetic, [w] bits wide. *)
Definition wrap (w x : Z) : Z := x mod 2 ^ w.

(** [static std::size_t align_up(std::size_t x, std::size_t alignment)]:
    [mask = alignment - 1; return (x + mask) & ~mask;] *)
Definition align_up (w x alignment : Z) : Z :=
  let mask := wrap w (alignment - 1) in
  Z.land (wrap w (x + mask)) (wrap w (Z.lnot mask)).

(** Powers of two, as [alignof] yields them. *)
Definition is_pow2 (a : Z) : Prop := ∃ k, 0 ≤ k ∧ a = 2 ^ k.

(** [m] is the least multiple of [a] that is not below [x]. *)
Definition least_multiple_ge (a x m : Z) : Prop :=
  (a | m) ∧ x ≤ m ∧ ∀ m', (a | m') → x ≤ m' → m ≤ m'.

(** Rounding up in the integers, as the specification writes
    [round_up(offset, alignof(T))]. *)
Definition round_up (x a : Z) : Z := (x + a - 1) / a * a.

(** ** Objects, destructor entries and observable events *)

(** A complete object type [T], as far as the arena looks at it:
    [sizeof(T)] and [alignof(T)].  [type_name] tells the instantiations
    of [destroy<T>] apart. *)
Record CppType := {
  type_name : string;
  size_of : Z;
  align_of : Z
}.

(** [struct Widget { int id; }] of the demo. *)
Definition Widget : CppType :=
  {| type_name := "Widget"; size_of := 4; align_of := 4 |}.

(** An 8-byte block and a single byte, both of alignment 1. *)
Definition Block8 : CppType :=
  {| type_name := "Block8"; size_of := 8; align_of := 1 |}.

Definition Byte : CppType :=
  {| type_name := "Byte"; size_of := 1; align_of := 1 |}.

(** What [T(std::forward<Args>(args)...)] does with the given arguments:
    it returns normally or it throws. *)
Inductive Ctor := CtorReturns | CtorThrows.

(** [void (*fn)(void*) noexcept]: null, or [&destroy<T>]. *)
Inductive FnPtr := nullfn | destroy (T : CppType).

(** [struct DtorEntry { fn; ptr; }] *)
Record DtorEntry := {
  fn : FnPtr;
  ptr : Z
}.

(** An object: its type and its address. *)
Definition object : Type := CppType * Z.

Inductive event :=
| Constructed (T : CppType) (addr : Z)   (* placement-new of a T at addr completed *)
| Destroyed (T : CppType) (addr : Z)     (* destroy<T>(addr) ran ~T() *)
| Puts (msg : string).                   (* std::puts *)

(** The objects whose construction, and whose destruction, a trace records,
    in the order of the trace. *)
Definition constructed_of (tr : list event) : list object :=
  omap (λ e, match e with Constructed T a => Some (T, a) | _ => None end) tr.

Definition destroyed_of (tr : list event) : list object :=
  omap (λ e, match e with Destroyed T a => Some (T, a) | _ => None end) tr.

Definition destroy_event (o : object) : event := Destroyed o.1 o.2.

(** The data members of the class, the byte contents of [buffer_] apart. *)
Record FixedArena := {
  offset_ : Z;
  dtors_ : list DtorEntry;
  dtor_count_ : Z
}.

(** A value-initialised entry of [dtors_[MaxDtors]{}]. *)
Definition null_entry : DtorEntry := {| fn := nullfn; ptr := 0 |}.

(** States of a [FixedArena<1024, 2>] whose buffer is at address 4096:
    after one widget, and after two. *)
Definition widget_entry (p : Z) : DtorEntry :=
  {| fn := destroy Widget; ptr := p |}.

Definition one_widget : FixedArena :=
  {| offset_ := 4;
     dtors_ := [widget_entry 4096; null_entry];
     dtor_count_ := 1 |}.

Definition two_widgets : FixedArena :=
  {| offset_ := 8;
     dtors_ := [widget_entry 4096; widget_entry 4100];
     dtor_count_ := 2 |}.

(** The entries in use: [dtors_[0 .. dtor_count_)], oldest first. *)
Definition ledger (s : FixedArena) : list DtorEntry :=
  take (Z.to_nat (dtor_count_ s)) (dtors_ s).

Definition entry_object (e : DtorEntry) : option object :=
  match fn e with
  | destroy T => Some (T, ptr e)
  | nullfn => None
  end.

Definition ledger_objects (s : FixedArena) : list object :=
  omap entry_object (ledger s).

(** Teardown as the specification words it: every outstanding finalizer,
    most recently added first. *)
Definition finalizers_lifo (s : FixedArena) : list event :=
  destroy_event <$> reverse (ledger_objects s).

(** ** Computations on an arena

    A member function runs on the arena and ends in one of four ways: it
    returns, an exception leaves it, [std::abort] ends the process, or its
    behaviour is undefined (a read outside [dtors_], a call through a null
    function pointer). *)
Inductive result (A : Type) :=
| Done (a : A) (s : FixedArena) (tr : list event)
| Raise (s : FixedArena) (tr : list event)
| Abort (tr : list event)
| Undefined.
Arguments Done {A} a s tr.
Arguments Raise {A} s tr.
Arguments Abort {A} tr.
Arguments Undefined {A}.

Definition M (A : Type) : Type := FixedArena → result A.

Definition ret {A} (a : A) : M A := λ s, Done a s [].

(** Events already emitted stay emitted, however the rest ends. *)
Definition after {A} (tr : list event) (r : result A) : result A :=
  match r with
  | Done a s tr' => Done a s (tr ++ tr')
  | Raise s tr' => Raise s (tr ++ tr')
  | Abort tr' => Abort (tr ++ tr')
  | Undefined => Undefined
  end.

Definition bind {A B} (m : M A) (k : A → M B) : M B := λ s,
  match m s with
  | Done a s' tr => after tr (k a s')
  | Raise s' tr => Raise s' tr
  | Abort tr => Abort tr
  | Undefined => Undefined
  end.

Notation "x <- m ;; k" := (bind m (λ x, k))
  (at level 63, m at next level, right associativity).
Notation "m ;;; k" := (bind m (λ _, k))
  (at level 63, right associativity).

(** Where a computation that came back, normally or by an exception, left
    the arena, and what it emitted. *)
Definition final {A} (r : result A) : option (FixedArena * list event) :=
  match r with
  | Done _ s tr | Raise s tr => Some (s, tr)
  | Abort _ | Undefined => None
  end.

(** Two arenas that no member function can tell apart: same offset, same
    count, same entries in use. *)
Definition same_view (s t : FixedArena) : Prop :=
  offset_ s = offset_ t ∧ dtor_count_ s = dtor_count_ t ∧ ledger s = ledger t.

(** Two runs that end the same way, with the same value and the same
    events, in arenas of the same view. *)
Definition same_result {A} (r1 r2 : result A) : Prop :=
  match r1, r2 with
  | Done a s tr, Done a' s' tr' => a = a' ∧ tr = tr' ∧ same_view s s'
  | Raise s tr, Raise s' tr' => tr = tr' ∧ same_view s s'
  | Abort tr, Abort tr' => tr = tr'
  | Undefined, Undefined => True
  | _, _ => False
  end.

(** ** Code that owns an arena

    What one call in the owning scope yields: a pointer, a null pointer, an
    exception caught around the call, or nothing ([reset]). *)
Inductive outcome := Got (p : Z) | Null | Caught | Void.

Definition handle (r : option Z) : outcome :=
  match r with Some p => Got p | None => Null end.

Definition succeeded (o : outcome) : Prop := ∃ p, o = Got p.

(** Statements of the owning scope: [arena.make<T>(args...)], the same
    call inside a [try] block with a handler, [arena.reset()], and a
    [throw] of the owner's own. *)
Inductive stmt :=
| SMake (T : CppType) (c : Ctor)
| STryMake (T : CppType) (c : Ctor)
| SReset
| SThrow.

(** How the owning scope is left. *)
Inductive scope_exit :=
| Returned (tr : list event)      (* control flows off the end *)
| Unwound (tr : list event)       (* an exception propagates out *)
| Terminated (tr : list event)    (* the process was ended inside *)
| UndefinedExit.

(** * The RAII logger

    Shallow embedding of the classes of [src/raii-logger/main.cpp], one
    thread at a time: what [FileHandle], [ScopedLock] and [Logger] do to
    their members, and which calls they make on the C library and on the
    mutex. *)

Module RaiiLogger.

(** A non-null [std::FILE*], named by a number. *)
Definition stream : Type := nat.

(** Calls on the C library and on [mu_].  [Fopen] records what [std::fopen]
    returned; the results of the other calls are ignored by the code. *)
Inductive call :=
| Fopen (path mode : string) (r : option stream)
| Fputs (s : string) (f : stream)
| Fputc (c : ascii) (f : stream)
| Fflush (f : stream)
| Fclose (f : stream)
| Lock
| Unlock.

(** How a member function ends: it returns, a [std::runtime_error] with
    the message [what] leaves it, or it waits for a mutex that is never
    released. *)
Inductive res (S : Type) :=
| Ok (s : S) (tr : list call)
| Throws (what : string) (s : S) (tr : list call)
| Blocked (tr : list call).
Arguments Ok {S} s tr.
Arguments Throws {S} what s tr.
Arguments Blocked {S} tr.

(** [class FileHandle { std::FILE* fp_{nullptr}; }] *)
Record FileHandle := { fp_ : option stream }.

Definition closed_handle : FileHandle := {| fp_ := None |}.

(** What [std::fputs] sees of [line.c_str()]: the characters before the
    first NUL. *)
Fixpoint c_str (s : string) : string :=
  match s with
  | EmptyString => EmptyString
  | String c s' =>
      if Ascii.eqb c Ascii.zero then EmptyString else String c (c_str s')
  end.

(** [explicit FileHandle(const char* path, const char* mode)]; [r] is what
    [std::fopen] returns.  When the constructor throws there is no
    object. *)
Definition FileHandle_new (path mode : string) (r : option stream)
  : res (option FileHandle) :=
  match r with
  | Some f => Ok (Some {| fp_ := Some f |}) [Fopen path mode r]
  | None => Throws "Failed to open file" None [Fopen path mode r]
  end.

(** [void close() noexcept] *)
Definition close (h : FileHandle) : FileHandle * list call :=
  match fp_ h with
  | Some f => ({| fp_ := None |}, [Fclose f])
  | None => (h, [])
  end.

(** [~FileHandle() { close(); }] *)
Definition FileHandle_delete (h : FileHandle) : FileHandle * list call :=
  close h.

(** [void write_line(const std::string& line)] *)
Definition write_line (line : string) (h : FileHandle) : res FileHandle :=
  match fp_ h with
  | None => Throws "File is closed" h []
  | Some f => Ok h [Fputs (c_str line) f; Fputc "010"%char f; Fflush f]
  end.

(** Objects by address.  An address that holds no [FileHandle], or a
    destroyed one, reads as a null handle. *)
Abbreviation store := (nat → FileHandle).

Definition empty_store : store := λ _, closed_handle.

(** [FileHandle(FileHandle&& other) noexcept], constructing at [new]. *)
Definition move_construct (new other : nat) (σ : store) : store :=
  <[other := {| fp_ := None |}]> (<[new := {| fp_ := fp_ (σ other) |}]> σ).

(** [FileHandle& operator=(FileHandle&& other) noexcept] on the object at
    [this]. *)
Definition move_assign (this other : nat) (σ : store) : store * list call :=
  if decide (this ≠ other) then
    let '(h, tr) := close (σ this) in
    let σ1 := <[this := h]> σ in
    let σ2 := <[this := {| fp_ := fp_ (σ1 other) |}]> σ1 in
    (<[other := {| fp_ := None |}]> σ2, tr)
  else (σ, []).

(** One operation on the handles in a store; exceptions are caught by
    the caller, who goes on. *)
Inductive op :=
| Construct (i : nat) (path mode : string) (r : option stream)
| MoveConstruct (new other : nat)
| MoveAssign (this other : nat)
| WriteLine (i : nat) (line : string)
| Destroy (i : nat).

Definition run_op (o : op) (σ : store) : store * list call :=
  match o with
  | Construct i path mode r =>
      match FileHandle_new path mode r with
      | Ok (Some h) tr => (<[i := h]> σ, tr)
      | Ok None tr | Throws _ _ tr | Blocked tr => (σ, tr)
      end
  | MoveConstruct new other => (move_construct new other σ, [])
  | MoveAssign this other => move_assign this other σ
  | WriteLine i line =>
      match write_line line (σ i) with
      | Ok h tr | Throws _ h tr => (<[i := h]> σ, tr)
      | Blocked tr => (σ, tr)
      end
  | Destroy i =>
      let '(h, tr) := FileHandle_delete (σ i) in (<[i := h]> σ, tr)
  end.

Fixpoint run (ops : list op) (σ : store) : store * list call :=
  match ops with
  | [] => (σ, [])
  | o :: rest =>
      let '(σ1, tr1) := run_op o σ in
      let '(σ2, tr2) := run rest σ1 in
      (σ2, tr1 ++ tr2)
  end.

(** The streams some handle of the store holds. *)
Definition owned (σ : store) (f : stream) : Prop := ∃ i, fp_ (σ i) = Some f.

(** No stream is held by two handles. *)
Definition unique_owner (σ : store) : Prop :=
  ∀ i j f, fp_ (σ i) = Some f → fp_ (σ j) = Some f → i = j.

(** What the language and the C library guarantee of an operation: an
    object is constructed in storage that holds no live handle, a move
    constructor builds a new object from another one, and [std::fopen]
    does not return a stream that is still open. *)
Definition op_ok (o : op) (σ : store) : Prop :=
  match o with
  | Construct i _ _ r =>
      fp_ (σ i) = None ∧ ∀ f, r = Some f → ¬ owned σ f
  | MoveConstruct new other => new ≠ other ∧ fp_ (σ new) = None
  | MoveAssign _ _ | WriteLine _ _ | Destroy _ => True
  end.

Fixpoint run_ok (ops : list op) (σ : store) : Prop :=
  match ops with
  | [] => True
  | o :: rest => op_ok o σ ∧ run_ok rest (run_op o σ).1
  end.

(** The open streams after the calls of [tr], from the set [open]. *)
Fixpoint streams_after (open : gset stream) (tr : list call) : gset stream :=
  match tr with
  | [] => open
  | Fopen _ _ (Some f) :: tr' => streams_after (open ∪ {[f]}) tr'
  | Fclose f :: tr' => streams_after (open ∖ {[f]}) tr'
  | _ :: tr' => streams_after open tr'
  end.

(** A trace uses streams safely: every write, flush and close is on a
    stream that is open at that point, so nothing is closed twice and
    nothing is used after its [fclose]. *)
Fixpoint safe (open : gset stream) (tr : list call) : Prop :=
  match tr with
  | [] => True
  | Fopen _ _ (Some f) :: tr' => (f ∉ open) ∧ safe (open ∪ {[f]}) tr'
  | Fputs _ f :: tr' | Fputc _ f :: tr' | Fflush f :: tr' =>
      f ∈ open ∧ safe open tr'
  | Fclose f :: tr' => f ∈ open ∧ safe (open ∖ {[f]}) tr'
  | _ :: tr' => safe open tr'
  end.

(** The characters handed to the stream [f], in order. *)
Fixpoint written (f : stream) (tr : list call) : string :=
  match tr with
  | [] => EmptyString
  | Fputs s g :: tr' =>
      if decide (f = g) then String.append s (written f tr') else written f tr'
  | Fputc c g :: tr' =>
      if decide (f = g) then String c (written f tr') else written f tr'
  | _ :: tr' => written f tr'
  end.

(** [class Logger { FileHandle file_; std::mutex mu_; }]; of the mutex,
    whether it is held. *)
Record Logger := {
  file_ : FileHandle;
  mu_ : bool
}.

(** [explicit Logger(const char* path) : file_(path, "a") {}] *)
Definition Logger_new (path : string) (r : option stream)
  : res (option Logger) :=
  match FileHandle_new path "a" r with
  | Ok (Some h) tr => Ok (Some {| file_ := h; mu_ := false |}) tr
  | Ok None tr => Ok None tr
  | Throws what _ tr => Throws what None tr
  | Blocked tr => Blocked tr
  end.

(** The implicit [~Logger()]: members go in reverse order of declaration;
    of these only [~FileHandle] makes a call. *)
Definition Logger_delete (L : Logger) : list call :=
  (FileHandle_delete (file_ L)).2.

(** [ScopedLock lock(mu_);] around [body]: [m_.lock()] on entry, and
    [m_.unlock()] when the block is left, by its end or by an exception. *)
Definition scoped_lock (body : FileHandle → res FileHandle) (L : Logger)
  : res Logger :=
  if mu_ L then Blocked []
  else
    match body (file_ L) with
    | Ok h tr => Ok {| file_ := h; mu_ := false |} ([Lock] ++ tr ++ [Unlock])
    | Throws what h tr =>
        Throws what {| file_ := h; mu_ := false |} ([Lock] ++ tr ++ [Unlock])
    | Blocked tr => Blocked ([Lock] ++ tr)
    end.

(** [void log(std::string msg)] *)
Definition log (msg : string) : Logger → res Logger :=
  scoped_lock (write_line msg).

(** [void log_then_throw(std::string msg)] *)
Definition log_then_throw (msg : string) : Logger → res Logger :=
  scoped_lock (λ h,
    match write_line msg h with
    | Ok h' tr => Throws "Intentional exception after writing" h' tr
    | r => r
    end).

(** Calls on a logger, in a scope that owns it. *)
Inductive action := Log (msg : string) | LogThenThrow (msg : string).

Definition act (a : action) : Logger → res Logger :=
  match a with
  | Log msg => log msg
  | LogThenThrow msg => log_then_throw msg
  end.

(** Calls one after the other; the first exception ends them. *)
Fixpoint acts (l : list action) (L : Logger) : res Logger :=
  match l with
  | [] => Ok L []
  | a :: rest =>
      match act a L with
      | Ok L1 tr1 =>
          match acts rest L1 with
          | Ok L2 tr2 => Ok L2 (tr1 ++ tr2)
          | Throws what L2 tr2 => Throws what L2 (tr1 ++ tr2)
          | Blocked tr2 => Blocked (tr1 ++ tr2)
          end
      | r => r
      end
  end.

(** How a scope [{ Logger logger(path); ... }] is left, and the calls made
    until then: by its end, or by an exception with its message. *)
Inductive left_by := Normally | Exception (what : string) | Never.

(** [{ Logger logger(path); calls... }]: the logger is destroyed when the
    scope is left, also by an exception; when its constructor throws there
    is nothing to destroy. *)
Definition session (path : string) (r : option stream) (l : list action)
  : left_by * list call :=
  match Logger_new path r with
  | Ok (Some L) tr0 =>
      match acts l L with
      | Ok L' tr => (Normally, tr0 ++ tr ++ Logger_delete L')
      | Throws what L' tr => (Exception what, tr0 ++ tr ++ Logger_delete L')
      | Blocked tr => (Never, tr0 ++ tr)
      end
  | Ok None tr0 => (Normally, tr0)
  | Throws what _ tr0 => (Exception what, tr0)
  | Blocked tr0 => (Never, tr0)
  end.

(** The calls of [l] that are made: those before the first call that
    throws, and that one. *)
Fixpoint performed (l : list action) : list string :=
  match l with
  | [] => []
  | Log msg :: rest => msg :: performed rest
  | LogThenThrow msg :: _ => [msg]
  end.

Definition throws (a : action) : bool :=
  match a with LogThenThrow _ => true | Log _ => false end.

(** The messages as lines: each as [fputs] sees it, then a newline. *)
Fixpoint lines (msgs : list string) : string :=
  match msgs with
  | [] => EmptyString
  | m :: rest => String.append (c_str m) (String "010"%char (lines rest))
  end.

(** The set [open] is exactly the set of streams the handles of [σ] hold,
    each held once. *)
Definition tracks (σ : store) (open : gset stream) : Prop :=
  unique_owner σ ∧ ∀ f, f ∈ open ↔ owned σ f.

End RaiiLogger.


Section Arena.
(** Target and template parameters: the width of [std::size_t],
    [alignof(std::max_align_t)], [N], [MaxDtors], and the address of
    [buffer_]. *)
Variables (w max_align N MaxDtors buffer_ : Z).

(** The types [make<T>] compiles for: object types, whose size is positive
    and at most [PTRDIFF_MAX] and whose alignment is a power of two, that
    pass [static_assert(alignof(T) <= alignof(std::max_align_t))]. *)
Definition supported (T : CppType) : Prop :=
  1 ≤ size_of T < 2 ^ (w - 1) ∧ is_pow2 (align_of T) ∧ align_of T ≤ max_align.

(** [FixedArena() = default], with the member initialisers
    [buffer_[N]{}], [offset_{0}], [dtors_[MaxDtors]{}], [dtor_count_{0}]. *)
Definition init : FixedArena :=
  {| offset_ := 0;
     dtors_ := replicate (Z.to_nat MaxDtors) null_entry;
     dtor_count_ := 0 |}.

Definition used (s : FixedArena) : Z := offset_ s.
Definition capacity : Z := N.

(** [void* allocate_aligned(size, alignment) noexcept]; a null [void*] is
    [None].  [buffer_ + aligned] points into a member array and is never
    null. *)
Definition allocate_aligned (size alignment : Z) : M (option Z) := λ s,
  let current := offset_ s in
  let aligned := align_up w current alignment in
  if wrap w (aligned + size) >? N then Done None s []
  else Done (Some (buffer_ + aligned))
            {| offset_ := wrap w (aligned + size);
               dtors_ := dtors_ s;
               dtor_count_ := dtor_count_ s |} [].

(** [::new (mem) T(args...)] *)
Definition construct (T : CppType) (mem : Z) (c : Ctor) : M Z := λ s,
  match c with
  | CtorReturns => Done mem s [Constructed T mem]
  | CtorThrows => Raise s []
  end.

(** [template <class T> void push_dtor(T* obj)].  The store
    [dtors_[dtor_count_++] = ...] is inside the array whenever the guard
    lets it through, the array having [MaxDtors] elements. *)
Definition push_dtor (T : CppType) (obj : Z) : M unit := λ s,
  if dtor_count_ s >=? MaxDtors then
    Abort [Puts "Too many objects for destructor list"]
  else
    Done tt
         {| offset_ := offset_ s;
            dtors_ := <[Z.to_nat (dtor_count_ s) := {| fn := destroy T; ptr := obj |}]>
                        (dtors_ s);
            dtor_count_ := wrap w (dtor_count_ s + 1) |} [].

(** [template <class T, class... Args> T* make(Args&&... args)] *)
Definition make (T : CppType) (c : Ctor) : M (option Z) :=
  mem <- allocate_aligned (size_of T) (align_of T) ;;
  match mem with
  | None => ret None
  | Some mem =>
      obj <- construct T mem c ;;
      push_dtor T obj ;;;
      ret (Some obj)
  end.

(** The loop of [reset]:
    [for (i = dtor_count_; i > 0; --i) dtors_[i - 1].fn(dtors_[i - 1].ptr);] *)
Fixpoint reset_loop (i : nat) (dtors : list DtorEntry) : option (list event) :=
  match i with
  | O => Some []
  | S i' =>
      match dtors !! i' with
      | Some {| fn := destroy T; ptr := p |} =>
          cons (Destroyed T p) <$> reset_loop i' dtors
      | _ => None
      end
  end.

(** [void reset() noexcept] *)
Definition reset : M unit := λ s,
  match reset_loop (Z.to_nat (dtor_count_ s)) (dtors_ s) with
  | Some tr =>
      Done tt {| offset_ := 0; dtors_ := dtors_ s; dtor_count_ := 0 |} tr
  | None => Undefined
  end.

(** [~FixedArena() { reset(); }] *)
Definition destructor : M unit := reset.

(** One statement of the owning scope. *)
Definition exec_stmt (st : stmt) : M outcome := λ s,
  match st with
  | SMake T c =>
      match make T c s with
      | Done r s' tr => Done (handle r) s' tr
      | Raise s' tr => Raise s' tr
      | Abort tr => Abort tr
      | Undefined => Undefined
      end
  | STryMake T c =>
      match make T c s with
      | Done r s' tr => Done (handle r) s' tr
      | Raise s' tr => Done Caught s' tr
      | Abort tr => Abort tr
      | Undefined => Undefined
      end
  | SReset =>
      match reset s with
      | Done _ s' tr => Done Void s' tr
      | Raise s' tr => Raise s' tr
      | Abort tr => Abort tr
      | Undefined => Undefined
      end
  | SThrow => Raise s []
  end.

Fixpoint exec (p : list stmt) : M (list outcome) :=
  match p with
  | [] => ret []
  | st :: rest =>
      o <- exec_stmt st ;;
      os <- exec rest ;;
      ret (o :: os)
  end.

(** A scope that declares [FixedArena<N, MaxDtors> arena;] and runs [p]:
    the destructor runs when control leaves the scope, by the end or by
    an exception; [std::abort] unwinds nothing, and an exception out of
    the [noexcept] destructor would end the process too. *)
Definition with_arena (p : list stmt) : scope_exit :=
  match exec p init with
  | Done _ s tr =>
      match destructor s with
      | Done _ _ tr' => Returned (tr ++ tr')
      | Raise _ tr' | Abort tr' => Terminated (tr ++ tr')
      | Undefined => UndefinedExit
      end
  | Raise s tr =>
      match destructor s with
      | Done _ _ tr' => Unwound (tr ++ tr')
      | Raise _ tr' | Abort tr' => Terminated (tr ++ tr')
      | Undefined => UndefinedExit
      end
  | Abort tr => Terminated tr
  | Undefined => UndefinedExit
  end.

(** The calls [main] makes on its arena when no allocation fails: three
    widgets, then an explicit [reset]. *)
Definition demo : list stmt :=
  [SMake Widget CtorReturns; SMake Widget CtorReturns;
   SMake Widget CtorReturns; SReset].

(** States an arena can be in: the fresh one and those the member
    functions lead to. *)
Inductive reachable : FixedArena → Prop :=
| reach_init : reachable init
| reach_make s T c r s' tr :
    reachable s → supported T → make T c s = Done r s' tr → reachable s'
| reach_throw s T c s' tr :
    reachable s → supported T → make T c s = Raise s' tr → reachable s'
| reach_reset s s' tr :
    reachable s → reset s = Done tt s' tr → reachable s'.

(** An active period: calls of [make], none of [reset]. *)
Inductive active : FixedArena → FixedArena → Prop :=
| active_refl s : active s s
| active_make s T c r s1 tr s2 :
    supported T → make T c s = Done r s1 tr → active s1 s2 → active s s2
| active_throw s T c s1 tr s2 :
    supported T → make T c s = Raise s1 tr → active s1 s2 → active s s2.

(** The class invariant. *)
Definition wf (s : FixedArena) : Prop :=
  0 ≤ offset_ s ≤ N ∧
  0 ≤ dtor_count_ s ≤ MaxDtors ∧
  length (dtors_ s) = Z.to_nat MaxDtors ∧
  Forall (λ e, fn e ≠ nullfn) (ledger s).

(** The end of the requested block, as [allocate_aligned] computes it. *)
Definition block_end (s : FixedArena) (T : CppType) : Z :=
  wrap w (align_up w (offset_ s) (align_of T) + size_of T).

(** The byte request of [make<T>] fits at the current offset. *)
Definition fits (s : FixedArena) (T : CppType) : Prop :=
  round_up (offset_ s) (align_of T) + size_of T ≤ N.

#[global] Instance fits_dec s T : Decision (fits s T).
Proof. unfold fits. apply _. Defined.

(** The state [allocate_aligned] leaves when the request fits. *)
Definition bumped (s : FixedArena) (T : CppType) : FixedArena :=
  {| offset_ := round_up (offset_ s) (align_of T) + size_of T;
     dtors_ := dtors_ s;
     dtor_count_ := dtor_count_ s |}.

(** The address [make<T>] places its object at. *)
Definition place (s : FixedArena) (T : CppType) : Z :=
  buffer_ + round_up (offset_ s) (align_of T).

(** The state a successful [make<T>] leaves. *)
Definition pushed (s : FixedArena) (T : CppType) : FixedArena :=
  {| offset_ := round_up (offset_ s) (align_of T) + size_of T;
     dtors_ := <[Z.to_nat (dtor_count_ s) :=
                   {| fn := destroy T; ptr := place s T |}]> (dtors_ s);
     dtor_count_ := dtor_count_ s + 1 |}.

Definition abort_trace (s : FixedArena) (T : CppType) : list event :=
  [Constructed T (place s T); Puts "Too many objects for destructor list"].

(** Objects laid out one after the other between [lo] and [hi]: each has
    a positive size, starts at or after the end of the one before it, at
    an address that is a multiple of its alignment. *)
Fixpoint packed (lo : Z) (l : list object) (hi : Z) : Prop :=
  match l with
  | [] => lo ≤ hi
  | (T, a) :: l' =>
      lo ≤ a ∧ a mod align_of T = 0 ∧ 0 < size_of T ∧
      packed (a + size_of T) l' hi
  end.

(** ** Facts *)

Hypothesis w_pos : 0 < w.
Hypothesis max_align_pow2 : is_pow2 max_align.
(** The arena is itself an object, the buffer and at least [max_align]
    bytes of bookkeeping, and no object is larger than [PTRDIFF_MAX]. *)
Hypothesis N_fits : 0 ≤ N ∧ N + max_align ≤ 2 ^ (w - 1).
Hypothesis MaxDtors_fits : 0 ≤ MaxDtors < 2 ^ w.
(** [alignas(std::max_align_t) std::uint8_t buffer_[N]] *)
Hypothesis buffer_aligned : (max_align | buffer_).

(** *** Word arithmetic *)

Lemma wrap_small x : 0 ≤ x < 2 ^ w → wrap w x = x.
Proof. intros H. unfold wrap. by apply Z.mod_small. Qed.

Lemma wrap_range x : 0 ≤ wrap w x < 2 ^ w.
Proof. unfold wrap. apply Z.mod_pos_bound. apply Z.pow_pos_nonneg; lia. Qed.

Lemma wrap_land_ones x : wrap w x = Z.land x (Z.ones w).
Proof. unfold wrap. rewrite Z.land_ones by lia. done. Qed.

(** Masking with the wrapped complement of [2^k - 1] clears the low [k]
    bits of a word. *)
Lemma land_wrap_lnot_ones y k :
  0 ≤ k → 0 ≤ y < 2 ^ w →
  Z.land y (wrap w (Z.lnot (Z.ones k))) = y / 2 ^ k * 2 ^ k.
Proof.
  intros Hk Hy.
  rewrite wrap_land_ones.
  rewrite (Z.land_comm (Z.lnot _)), Z.land_assoc.
  rewrite <- wrap_land_ones, (wrap_small y) by done.
  rewrite <- Z.ldiff_land, Z.ldiff_ones_r by done.
  rewrite Z.shiftr_div_pow2, Z.shiftl_mul_pow2 by done.
  done.
Qed.

(** Closed form of [align_up] on a power of two, without overflow. *)
Lemma align_up_pow2 x k :
  0 ≤ k → 0 ≤ x → x + 2 ^ k - 1 < 2 ^ w →
  align_up w x (2 ^ k) = round_up x (2 ^ k).
Proof.
  intros Hk Hx Hov.
  assert (0 < 2 ^ k) by (apply Z.pow_pos_nonneg; lia).
  unfold align_up, round_up; cbv zeta.
  rewrite (wrap_small (2 ^ k - 1)) by lia.
  replace (x + (2 ^ k - 1)) with (x + 2 ^ k - 1) by lia.
  rewrite (wrap_small (x + 2 ^ k - 1)) by lia.
  pose proof (land_wrap_lnot_ones (x + 2 ^ k - 1) k Hk) as E.
  rewrite Z.ones_equiv, <- Z.sub_1_r in E. apply E; lia.
Qed.

Lemma align_up_round_up x a :
  is_pow2 a → 0 ≤ x → x + a - 1 < 2 ^ w → align_up w x a = round_up x a.
Proof. intros (k & Hk & ->). by apply align_up_pow2. Qed.

Lemma round_up_least a x : 0 < a → least_multiple_ge a x (round_up x a).
Proof.
  intros Ha. unfold round_up. repeat split.
  - by apply Z.divide_factor_r.
  - pose proof (Z.mod_pos_bound (x + a - 1) a Ha).
    pose proof (Z.div_mod (x + a - 1) a). lia.
  - intros m' [q ->] Hle.
    apply Z.mul_le_mono_nonneg_r; [lia|].
    assert ((x + a - 1) / a < q + 1); [|lia].
    apply Z.div_lt_upper_bound; lia.
Qed.

Lemma round_up_bounds a x : 0 < a → x ≤ round_up x a ≤ x + a - 1.
Proof.
  intros Ha. unfold round_up.
  pose proof (Z.mod_pos_bound (x + a - 1) a Ha).
  pose proof (Z.div_mod (x + a - 1) a). lia.
Qed.

Lemma is_pow2_pos a : is_pow2 a → 0 < a.
Proof. intros (k & Hk & ->). apply Z.pow_pos_nonneg; lia. Qed.

Lemma is_pow2_divide a b : is_pow2 a → is_pow2 b → a ≤ b → (a | b).
Proof.
  intros (k & Hk & ->) (m & Hm & ->) Hle.
  assert (k ≤ m) by (apply (Z.pow_le_mono_r_iff 2); lia).
  exists (2 ^ (m - k)). rewrite <- Z.pow_add_r by lia. f_equal. lia.
Qed.

(** *** The monad *)

Lemma after_nil {A} (r : result A) : after [] r = r.
Proof. by destruct r. Qed.

(** *** [make], step by step *)

Lemma make_unfold T c s :
  make T c s =
  let mem := buffer_ + align_up w (offset_ s) (align_of T) in
  if block_end s T >? N then Done None s []
  else
    match c with
    | CtorThrows =>
        Raise {| offset_ := block_end s T; dtors_ := dtors_ s;
                 dtor_count_ := dtor_count_ s |} []
    | CtorReturns =>
        if dtor_count_ s >=? MaxDtors then
          Abort [Constructed T mem; Puts "Too many objects for destructor list"]
        else
          Done (Some mem)
               {| offset_ := block_end s T;
                  dtors_ := <[Z.to_nat (dtor_count_ s) :=
                                {| fn := destroy T; ptr := mem |}]> (dtors_ s);
                  dtor_count_ := wrap w (dtor_count_ s + 1) |}
               [Constructed T mem]
    end.
Proof.
  unfold make, bind, allocate_aligned, block_end; cbv zeta.
  destruct (_ >? N); [done|].
  destruct c; cbn; [|done].
  unfold push_dtor; cbn.
  by destruct (_ >=? MaxDtors).
Qed.

(** Under the invariant the arithmetic of [allocate_aligned] does not wrap. *)
Lemma alloc_arith s T :
  0 ≤ offset_ s ≤ N → supported T →
  align_up w (offset_ s) (align_of T) = round_up (offset_ s) (align_of T) ∧
  block_end s T = round_up (offset_ s) (align_of T) + size_of T.
Proof.
  intros Ho (Hsz & Hp2 & Hal).
  pose proof (is_pow2_pos _ Hp2) as Hpos.
  assert (2 ^ w = 2 * 2 ^ (w - 1)) as Hw.
  { rewrite <- Z.pow_succ_r by lia. f_equal. lia. }
  assert (E : align_up w (offset_ s) (align_of T)
              = round_up (offset_ s) (align_of T)).
  { apply align_up_round_up; [done|lia|lia]. }
  split; [done|].
  unfold block_end. rewrite E.
  pose proof (round_up_bounds (align_of T) (offset_ s) Hpos).
  apply wrap_small. lia.
Qed.

Lemma fits_iff s T :
  0 ≤ offset_ s ≤ N → supported T →
  (block_end s T >? N) = false ↔ fits s T.
Proof.
  intros Ho HT. destruct (alloc_arith s T Ho HT) as [_ ->].
  unfold fits. rewrite Z.gtb_ltb, Z.ltb_ge. done.
Qed.

(** *** The ledger *)

Lemma ledger_push s e :
  0 ≤ dtor_count_ s < MaxDtors →
  length (dtors_ s) = Z.to_nat MaxDtors →
  take (Z.to_nat (wrap w (dtor_count_ s + 1)))
       (<[Z.to_nat (dtor_count_ s) := e]> (dtors_ s))
  = ledger s ++ [e].
Proof.
  intros Hc Hlen. unfold ledger.
  rewrite wrap_small by lia.
  replace (Z.to_nat (dtor_count_ s + 1)) with (S (Z.to_nat (dtor_count_ s))) by lia.
  erewrite take_S_r; last (apply list_lookup_insert_eq; lia).
  by rewrite take_insert_ge by lia.
Qed.

Lemma constructed_of_app tr1 tr2 :
  constructed_of (tr1 ++ tr2) = constructed_of tr1 ++ constructed_of tr2.
Proof. apply omap_app. Qed.

Lemma reset_loop_take n dtors :
  (n ≤ length dtors)%nat →
  Forall (λ e, fn e ≠ nullfn) (take n dtors) →
  reset_loop n dtors
  = Some (destroy_event <$> reverse (omap entry_object (take n dtors))).
Proof.
  induction n as [|n IH]; intros Hn Hall; [done|].
  destruct (lookup_lt_is_Some_2 dtors n) as [e He]; [lia|].
  rewrite (take_S_r _ _ _ He) in Hall |- *.
  apply Forall_app in Hall as [Hall He'].
  rewrite Forall_singleton in He'.
  cbn [reset_loop]. rewrite He.
  destruct e as [[|T] p]; [by cbn in He'|].
  rewrite IH; [|lia|done].
  rewrite omap_app, reverse_app. done.
Qed.

(** [reset] returns, having run the finalizers of the ledger last to
    first. *)
Lemma reset_spec s :
  wf s →
  reset s = Done tt {| offset_ := 0; dtors_ := dtors_ s; dtor_count_ := 0 |}
                 (finalizers_lifo s).
Proof.
  intros (_ & Hc & Hlen & Hall). unfold reset.
  rewrite reset_loop_take; [done|lia|done].
Qed.

(** *** The invariant *)

Lemma wf_init : wf init.
Proof.
  unfold wf, init, ledger; cbn.
  rewrite length_replicate. repeat split; try lia. by rewrite take_0.
Qed.

Lemma wf_reset s s' tr : wf s → reset s = Done tt s' tr → wf s'.
Proof.
  intros Hwf. rewrite (reset_spec s Hwf). intros [= <- _].
  destruct Hwf as (_ & _ & Hlen & _).
  unfold wf, ledger; cbn. repeat split; try lia; try done.
Qed.

Lemma wf_make_done s T c r s' tr :
  wf s → make T c s = Done r s' tr → wf s'.
Proof.
  intros Hwf. rewrite make_unfold; cbv zeta.
  destruct (block_end s T >? N) eqn:Hend; [by intros [= _ <- _]|].
  destruct c; [|done].
  destruct (dtor_count_ s >=? MaxDtors) eqn:Hfull; [done|].
  intros [= _ <- _].
  destruct Hwf as (Ho & Hc & Hlen & Hall).
  rewrite Z.gtb_ltb, Z.ltb_ge in Hend.
  rewrite Z.geb_leb, Z.leb_gt in Hfull.
  pose proof (wrap_range (align_up w (offset_ s) (align_of T) + size_of T)).
  unfold wf, ledger; cbn. fold (block_end s T).
  split; [unfold block_end in *; lia|].
  split; [rewrite wrap_small; lia|].
  split; [by rewrite length_insert|].
  rewrite ledger_push by (done || lia).
  apply Forall_app. split; [done|]. by apply Forall_singleton.
Qed.

Lemma wf_make_raise s T c s' tr :
  wf s → make T c s = Raise s' tr → wf s'.
Proof.
  intros Hwf. rewrite make_unfold; cbv zeta.
  destruct (block_end s T >? N) eqn:Hend; [done|].
  destruct c; [by destruct (_ >=? MaxDtors)|].
  intros [= <- _].
  destruct Hwf as (Ho & Hc & Hlen & Hall).
  rewrite Z.gtb_ltb, Z.ltb_ge in Hend.
  pose proof (wrap_range (align_up w (offset_ s) (align_of T) + size_of T)).
  unfold wf, ledger; cbn. unfold block_end in *. repeat split; try lia; done.
Qed.

Lemma reachable_wf s : reachable s → wf s.
Proof.
  induction 1; eauto using wf_init, wf_make_done, wf_make_raise, wf_reset.
Qed.

(** *** The four ways [make] ends *)

Lemma make_cases s T c :
  wf s → supported T →
  make T c s =
  if bool_decide (fits s T) then
    match c with
    | CtorThrows => Raise (bumped s T) []
    | CtorReturns =>
        if bool_decide (dtor_count_ s < MaxDtors)
        then Done (Some (place s T)) (pushed s T) [Constructed T (place s T)]
        else Abort (abort_trace s T)
    end
  else Done None s [].
Proof.
  intros (Ho & Hc & Hlen & Hall) HT.
  rewrite make_unfold; cbv zeta.
  pose proof (fits_iff s T Ho HT) as Hfit.
  destruct (alloc_arith s T Ho HT) as [Ea Ee].
  destruct (block_end s T >? N) eqn:Hend.
  { rewrite bool_decide_eq_false_2; [done|]. rewrite <- Hfit. done. }
  rewrite bool_decide_eq_true_2 by (by apply Hfit).
  destruct c; [|by rewrite Ee].
  rewrite Z.geb_leb. unfold place, pushed, abort_trace. rewrite Ea, Ee.
  destruct (MaxDtors <=? dtor_count_ s) eqn:Hfull.
  - apply Z.leb_le in Hfull. rewrite bool_decide_eq_false_2 by lia. done.
  - apply Z.leb_gt in Hfull. rewrite bool_decide_eq_true_2 by lia.
    rewrite wrap_small by lia. done.
Qed.

Lemma make_nofit s T c :
  wf s → supported T → ¬ fits s T → make T c s = Done None s [].
Proof.
  intros Hwf HT Hn. rewrite make_cases by done.
  by rewrite bool_decide_eq_false_2.
Qed.

Lemma make_throw s T :
  wf s → supported T → fits s T →
  make T CtorThrows s = Raise (bumped s T) [].
Proof.
  intros Hwf HT Hf. rewrite make_cases by done.
  by rewrite bool_decide_eq_true_2.
Qed.

Lemma make_full s T :
  wf s → supported T → fits s T → dtor_count_ s = MaxDtors →
  make T CtorReturns s = Abort (abort_trace s T).
Proof.
  intros Hwf HT Hf Hc. rewrite make_cases by done.
  rewrite bool_decide_eq_true_2 by done.
  by rewrite bool_decide_eq_false_2 by lia.
Qed.

Lemma make_ok s T :
  wf s → supported T → fits s T → dtor_count_ s < MaxDtors →
  make T CtorReturns s
  = Done (Some (place s T)) (pushed s T) [Constructed T (place s T)].
Proof.
  intros Hwf HT Hf Hc. rewrite make_cases by done.
  by rewrite !bool_decide_eq_true_2.
Qed.

Lemma make_some_inv s T c p s' tr :
  wf s → supported T → make T c s = Done (Some p) s' tr →
  fits s T ∧ c = CtorReturns ∧ dtor_count_ s < MaxDtors ∧
  p = place s T ∧ s' = pushed s T ∧ tr = [Constructed T p].
Proof.
  intros Hwf HT. rewrite make_cases by done.
  case_bool_decide; [|done].
  destruct c; [|done].
  case_bool_decide; [|done].
  by intros [= <- <- <-].
Qed.

Lemma make_none_inv s T c s' tr :
  wf s → supported T → make T c s = Done None s' tr →
  ¬ fits s T ∧ s' = s ∧ tr = [].
Proof.
  intros Hwf HT. rewrite make_cases by done.
  case_bool_decide.
  - destruct c; [|done]. by case_bool_decide.
  - by intros [= <- <-].
Qed.

Lemma make_raise_inv s T c s' tr :
  wf s → supported T → make T c s = Raise s' tr →
  fits s T ∧ c = CtorThrows ∧ s' = bumped s T ∧ tr = [].
Proof.
  intros Hwf HT. rewrite make_cases by done.
  case_bool_decide; [|done].
  destruct c; [by case_bool_decide|].
  by intros [= <- <-].
Qed.

Lemma make_never_undefined s T c : make T c s ≠ Undefined.
Proof.
  rewrite make_unfold; cbv zeta.
  destruct (_ >? N); [done|]. destruct c; [|done].
  by destruct (_ >=? MaxDtors).
Qed.

(** The offset never moves back in an active period. *)
Lemma bumped_offset s T :
  wf s → supported T → offset_ s < offset_ (bumped s T).
Proof.
  intros (Ho & _) (Hsz & Hp2 & _). cbn.
  pose proof (round_up_bounds (align_of T) (offset_ s) (is_pow2_pos _ Hp2)).
  lia.
Qed.

Lemma active_offset s s' :
  active s s' → wf s → wf s' ∧ offset_ s ≤ offset_ s'.
Proof.
  induction 1 as [s|s T c r s1 tr s2 HT Hmk _ IH|s T c s1 tr s2 HT Hmk _ IH];
    intros Hwf; [done| |].
  - pose proof (wf_make_done _ _ _ _ _ _ Hwf Hmk) as Hwf1.
    destruct (IH Hwf1) as [Hwf2 Hle]. split; [done|].
    destruct r as [p|].
    + apply make_some_inv in Hmk as (_ & _ & _ & _ & -> & _); [|done..].
      pose proof (bumped_offset s T Hwf HT). cbn in *. lia.
    + apply make_none_inv in Hmk as (_ & -> & _); done.
  - pose proof (wf_make_raise _ _ _ _ _ Hwf Hmk) as Hwf1.
    destruct (IH Hwf1) as [Hwf2 Hle]. split; [done|].
    apply make_raise_inv in Hmk as (_ & _ & -> & _); [|done..].
    pose proof (bumped_offset s T Hwf HT). lia.
Qed.

(** *** Programs of the owning scope *)

Lemma exec_cons st rest s :
  exec (st :: rest) s =
  match exec_stmt st s with
  | Done o s1 tr1 =>
      after tr1
        match exec rest s1 with
        | Done os s2 tr2 => Done (o :: os) s2 tr2
        | Raise s2 tr2 => Raise s2 tr2
        | Abort tr2 => Abort tr2
        | Undefined => Undefined
        end
  | Raise s1 tr1 => Raise s1 tr1
  | Abort tr1 => Abort tr1
  | Undefined => Undefined
  end.
Proof.
  cbn [exec]. unfold bind, ret.
  destruct (exec_stmt st s); try done.
  destruct (exec rest _); cbn; by rewrite ?app_nil_r.
Qed.

Lemma exec_cons_done st rest s outs s2 tr :
  exec (st :: rest) s = Done outs s2 tr →
  ∃ o os s1 tr1 tr2,
    exec_stmt st s = Done o s1 tr1 ∧ exec rest s1 = Done os s2 tr2 ∧
    outs = o :: os ∧ tr = tr1 ++ tr2.
Proof.
  rewrite exec_cons.
  destruct (exec_stmt st s) as [o s1 tr1| | |]; try done.
  destruct (exec rest s1) as [os s2' tr2| | |] eqn:E; try done.
  cbn. intros [= <- <- <-]. by exists o, os, s1, tr1, tr2.
Qed.

Lemma exec_stmt_wf st s s1 tr :
  wf s → final (exec_stmt st s) = Some (s1, tr) → wf s1.
Proof.
  intros Hwf. destruct st as [T c|T c| |]; cbn.
  - destruct (make T c s) eqn:E; cbn; intros [= <- <-];
      eauto using wf_make_done, wf_make_raise.
  - destruct (make T c s) eqn:E; cbn; intros [= <- <-];
      eauto using wf_make_done, wf_make_raise.
  - rewrite (reset_spec s Hwf). cbn. intros [= <- <-].
    eapply wf_reset; [done|]. by apply reset_spec.
  - by intros [= <- <-].
Qed.

Lemma exec_wf p s s' tr :
  wf s → final (exec p s) = Some (s', tr) → wf s'.
Proof.
  revert s tr. induction p as [|st rest IH]; intros s tr Hwf.
  { by intros [= <- <-]. }
  rewrite exec_cons.
  destruct (exec_stmt st s) as [o s1 tr1|s1 tr1| |] eqn:E; cbn; try done.
  - assert (wf s1) as Hwf1 by (eapply exec_stmt_wf; [done|]; by rewrite E).
    destruct (exec rest s1) as [os s2 tr2|s2 tr2| |] eqn:E2; cbn; try done;
      intros [= <- <-]; eapply IH; try done; by rewrite E2.
  - intros [= <- <-]. eapply exec_stmt_wf; [done|]. by rewrite E.
Qed.

(** Each object whose construction completes in a call that comes back is
    appended to the ledger. *)
Lemma make_done_ledger s T c r s' tr :
  wf s → make T c s = Done r s' tr →
  ledger_objects s' = ledger_objects s ++ constructed_of tr.
Proof.
  intros (Ho & Hc & Hlen & Hall). rewrite make_unfold; cbv zeta.
  destruct (block_end s T >? N); [intros [= _ <- <-]; by rewrite app_nil_r|].
  destruct c; [|done].
  destruct (dtor_count_ s >=? MaxDtors) eqn:Hfull; [done|].
  rewrite Z.geb_leb, Z.leb_gt in Hfull.
  intros [= _ <- <-]. unfold ledger_objects at 1, ledger; cbn.
  rewrite ledger_push by (done || lia). by rewrite omap_app.
Qed.

Lemma make_raise_ledger s T c s' tr :
  make T c s = Raise s' tr → ledger_objects s' = ledger_objects s ∧ tr = [].
Proof.
  rewrite make_unfold; cbv zeta.
  destruct (block_end s T >? N); [done|].
  destruct c; [by destruct (_ >=? MaxDtors)|].
  by intros [= <- <-].
Qed.

Lemma exec_ledger p s outs s' tr :
  wf s → SReset ∉ p → exec p s = Done outs s' tr →
  ledger_objects s' = ledger_objects s ++ constructed_of tr.
Proof.
  revert s outs tr. induction p as [|st rest IH]; intros s outs tr Hwf Hnr.
  { intros [= _ <- <-]. by rewrite app_nil_r. }
  intros (o & os & s1 & tr1 & tr2 & E1 & E2 & -> & ->)%exec_cons_done.
  apply not_elem_of_cons in Hnr as [Hst Hnr].
  assert (wf s1) as Hwf1 by (eapply exec_stmt_wf; [done|]; by rewrite E1).
  rewrite (IH _ _ _ Hwf1 Hnr E2), constructed_of_app, app_assoc. f_equal.
  destruct st as [T c|T c| |]; cbn in E1; [| |done|done].
  - destruct (make T c s) eqn:E; try done.
    injection E1 as <- <- <-. by eapply make_done_ledger.
  - destruct (make T c s) eqn:E; try done; injection E1 as <- <- <-.
    + by eapply make_done_ledger.
    + apply make_raise_ledger in E as [-> ->]. by rewrite app_nil_r.
Qed.

(** Every call that hands out an object takes one slot of the ledger. *)
Lemma exec_count p s outs s' tr :
  wf s → exec p s = Done outs s' tr → Forall succeeded outs →
  dtor_count_ s' = dtor_count_ s + Z.of_nat (length p).
Proof.
  revert s outs tr. induction p as [|st rest IH]; intros s outs tr Hwf.
  { intros [= _ <- _] _. cbn. lia. }
  intros (o & os & s1 & tr1 & tr2 & E1 & E2 & -> & ->)%exec_cons_done Hall.
  apply Forall_cons in Hall as [[p ->] Hall].
  assert (wf s1) as Hwf1 by (eapply exec_stmt_wf; [done|]; by rewrite E1).
  rewrite (IH _ _ _ Hwf1 E2 Hall). cbn [length].
  assert (dtor_count_ s1 = dtor_count_ s + 1); [|lia].
  destruct Hwf as (Ho & Hc & Hlen & _).
  assert (∀ T c r, make T c s = Done r s1 tr1 → Got p = handle r →
                   dtor_count_ s1 = dtor_count_ s + 1) as Hmk.
  { intros T c r. rewrite make_unfold; cbv zeta.
    destruct (block_end s T >? N); [by intros [= <- _ _]|].
    destruct c; [|done].
    destruct (dtor_count_ s >=? MaxDtors) eqn:Hfull; [done|].
    rewrite Z.geb_leb, Z.leb_gt in Hfull.
    intros [= _ <- _] _. cbn. apply wrap_small. lia. }
  destruct st as [T c|T c| |]; cbn in E1; [| | |done].
  - destruct (make T c s) eqn:E; try done. injection E1 as E1 <- <-. eauto.
  - destruct (make T c s) eqn:E; try done; injection E1 as E1 <- <-; eauto.
  - by destruct (reset s).
Qed.

(** *** Runs from arenas of the same view *)

Lemma make_same_view s t T c :
  wf s → wf t → same_view s t → same_result (make T c s) (make T c t).
Proof.
  intros (_ & Hcs & Hls & _) (_ & Hct & Hlt & _) (Ho & Hc & Hl).
  destruct s as [o ds n], t as [o' dt n']; cbn in Ho, Hc; subst o' n'.
  unfold ledger in Hl; cbn in Hl, Hcs, Hls, Hlt.
  rewrite !make_unfold; cbv zeta. unfold block_end; cbn.
  destruct (_ >? N); [done|].
  destruct c; [|done].
  destruct (n >=? MaxDtors) eqn:Hfull; [done|].
  rewrite Z.geb_leb, Z.leb_gt in Hfull.
  cbn. repeat split. unfold ledger; cbn.
  set (e := {| fn := destroy T; ptr := _ |}).
  pose proof (ledger_push {| offset_ := o; dtors_ := ds; dtor_count_ := n |} e)
    as Es.
  pose proof (ledger_push {| offset_ := o; dtors_ := dt; dtor_count_ := n |} e)
    as Et.
  unfold ledger in Es, Et; cbn in Es, Et.
  rewrite Es, Et by (done || lia). by rewrite Hl.
Qed.

Lemma reset_same_view s t :
  wf s → wf t → same_view s t → same_result (reset s) (reset t).
Proof.
  intros Hs Ht (Ho & Hc & Hl).
  rewrite (reset_spec s Hs), (reset_spec t Ht). cbn.
  unfold finalizers_lifo, ledger_objects. rewrite Hl.
  repeat split; unfold ledger; cbn; by rewrite ?take_0.
Qed.

Lemma exec_stmt_same_view st s t :
  wf s → wf t → same_view s t →
  same_result (exec_stmt st s) (exec_stmt st t).
Proof.
  intros Hs Ht Hv. destruct st as [T c|T c| |]; cbn.
  - pose proof (make_same_view s t T c Hs Ht Hv) as H.
    destruct (make T c s), (make T c t); cbn in *; intuition congruence.
  - pose proof (make_same_view s t T c Hs Ht Hv) as H.
    destruct (make T c s), (make T c t); cbn in *; intuition congruence.
  - pose proof (reset_same_view s t Hs Ht Hv) as H.
    destruct (reset s), (reset t); cbn in *; intuition congruence.
  - done.
Qed.

Lemma exec_same_view p s t :
  wf s → wf t → same_view s t → same_result (exec p s) (exec p t).
Proof.
  revert s t. induction p as [|st rest IH]; intros s t Hs Ht Hv; [done|].
  rewrite !exec_cons.
  pose proof (exec_stmt_same_view st s t Hs Ht Hv) as H1.
  pose proof (exec_stmt_wf st s) as Hwfs.
  pose proof (exec_stmt_wf st t) as Hwft.
  destruct (exec_stmt st s) as [o s1 tr1|s1 tr1|tr1|],
           (exec_stmt st t) as [o' t1 tr1'|t1 tr1'|tr1'|];
    cbn in H1; try done.
  destruct H1 as (-> & -> & Hv1).
  specialize (IH s1 t1 (Hwfs _ _ Hs eq_refl) (Hwft _ _ Ht eq_refl) Hv1).
  destruct (exec rest s1), (exec rest t1); cbn in *; intuition congruence.
Qed.

Lemma exec_app_done p q s outs s1 tr :
  exec p s = Done outs s1 tr →
  exec (p ++ q) s =
  after tr
    match exec q s1 with
    | Done os s2 tr2 => Done (outs ++ os) s2 tr2
    | Raise s2 tr2 => Raise s2 tr2
    | Abort tr2 => Abort tr2
    | Undefined => Undefined
    end.
Proof.
  revert s outs tr. induction p as [|st rest IH]; intros s outs tr.
  { intros [= <- <- <-]. cbn [app]. rewrite after_nil. by destruct (exec q s). }
  intros (o & os & s' & tr1 & tr2 & E1 & E2 & -> & ->)%exec_cons_done.
  cbn [app]. rewrite exec_cons, E1, (IH _ _ _ E2).
  destruct (exec q s1); cbn; by rewrite ?app_assoc.
Qed.

(** *** The properties of the specification *)

(** C9: for every offset [x] and every alignment [a] that is a power of
    two, with [x + a - 1] not overflowing the word, [align_up x a], which
    is [(x + (a - 1)) & ~(a - 1)] computed modulo [2 ^ w], is the least
    multiple of [a] that is greater than or equal to [x]. *)
Theorem align_up_least_multiple x a :
  is_pow2 a → 0 ≤ x → x + a - 1 < 2 ^ w →
  align_up w x a
  = Z.land ((x + (a - 1)) mod 2 ^ w) (Z.lnot (a - 1) mod 2 ^ w)
  ∧ least_multiple_ge a x (align_up w x a).
Proof.
  intros Hp2 Hx Hov. pose proof (is_pow2_pos a Hp2). split.
  - unfold align_up; cbv zeta. rewrite (wrap_small (a - 1)) by lia. done.
  - rewrite align_up_round_up by done. by apply round_up_least.
Qed.

(** C2: for a request of size [size_of T] and alignment [align_of T] at the
    current offset, the allocation succeeds iff
    [round_up offset align + size <= N]; when it fails [make] returns the
    null pointer, emits nothing (no object is constructed) and leaves the
    arena, offset and ledger, exactly as it was. *)
Theorem make_capacity_boundary s T c :
  reachable s → supported T →
  ((∃ p s', allocate_aligned (size_of T) (align_of T) s = Done (Some p) s' [])
   ↔ round_up (offset_ s) (align_of T) + size_of T ≤ capacity) ∧
  (¬ fits s T →
   allocate_aligned (size_of T) (align_of T) s = Done None s [] ∧
   make T c s = Done None s []) ∧
  (∀ s' tr, make T c s = Done None s' tr → ¬ fits s T ∧ s' = s ∧ tr = []).
Proof.
  intros Hwf%reachable_wf HT.
  pose proof Hwf as (Ho & _).
  pose proof (fits_iff s T Ho HT) as Hfit.
  assert (∀ r s' tr, allocate_aligned (size_of T) (align_of T) s = Done r s' tr
            → (block_end s T >? N) = bool_decide (r = None)) as Halloc.
  { intros r s' tr. unfold allocate_aligned; cbv zeta. fold (block_end s T).
    destruct (block_end s T >? N); by intros [= <- _ _]. }
  split; [|split].
  - fold (fits s T). rewrite <- Hfit. split.
    + intros (p & s' & E). by rewrite (Halloc _ _ _ E).
    + intros Hend. unfold allocate_aligned; cbv zeta.
      fold (block_end s T). rewrite Hend. eauto.
  - intros Hn. split; [|by apply make_nofit].
    assert ((block_end s T >? N) = true) as Hend.
    { apply not_false_is_true. intros E. by apply Hn, Hfit. }
    unfold allocate_aligned; cbv zeta. fold (block_end s T). by rewrite Hend.
  - intros s' tr. by apply make_none_inv.
Qed.

(** C4: every address a successful [make<T>] returns is a multiple of
    [alignof(T)] and lies in [[buffer_, buffer_ + N)]; the whole object
    does. *)
Theorem make_address_aligned_in_buffer s T c p s' tr :
  reachable s → supported T → make T c s = Done (Some p) s' tr →
  p mod align_of T = 0 ∧ buffer_ ≤ p < buffer_ + N ∧
  p + size_of T ≤ buffer_ + N.
Proof.
  intros Hwf%reachable_wf HT Hmk.
  apply make_some_inv in Hmk as (Hfit & _ & _ & -> & _ & _); [|done..].
  destruct Hwf as (Ho & _). destruct HT as (Hsz & Hp2 & Hal).
  pose proof (is_pow2_pos _ Hp2) as Hpos.
  pose proof (round_up_bounds (align_of T) (offset_ s) Hpos).
  destruct (round_up_least (align_of T) (offset_ s) Hpos) as (Hdiv & _).
  unfold fits, place in *. split; [|lia].
  apply Z.mod_divide; [lia|].
  apply Z.divide_add_r; [|done].
  etrans; [|exact buffer_aligned]. by apply is_pow2_divide.
Qed.

(** C5: of two successful allocations in one active period, the later one
    starts at or after the end of the earlier one; their byte ranges do
    not overlap. *)
Theorem allocations_do_not_overlap s TA cA a s1 trA s2 TB cB b s3 trB :
  reachable s → supported TA → supported TB →
  make TA cA s = Done (Some a) s1 trA →
  active s1 s2 →
  make TB cB s2 = Done (Some b) s3 trB →
  a + size_of TA ≤ b ∧
  ∀ x, ¬ (a ≤ x < a + size_of TA ∧ b ≤ x < b + size_of TB).
Proof.
  intros Hwf%reachable_wf HA HB HmkA Hact HmkB.
  pose proof (wf_make_done _ _ _ _ _ _ Hwf HmkA) as Hwf1.
  destruct (active_offset _ _ Hact Hwf1) as [Hwf2 Hle].
  apply make_some_inv in HmkA as (_ & _ & _ & -> & -> & _); [|done..].
  apply make_some_inv in HmkB as (_ & _ & _ & -> & _ & _); [|done..].
  destruct HB as (_ & Hp2 & _).
  pose proof (round_up_bounds (align_of TB) (offset_ s2) (is_pow2_pos _ Hp2)).
  unfold place in *. cbn in Hle. split; [lia|]. intros x. lia.
Qed.

(** C6: [reset] always returns; after it [used()] is 0 and the ledger is
    empty; on an arena that is already empty it emits nothing and
    changes nothing, so a second [reset] in a row is a no-op. *)
Theorem reset_total_idempotent s :
  reachable s →
  ∃ s' tr,
    reset s = Done tt s' tr ∧ used s' = 0 ∧ dtor_count_ s' = 0 ∧
    ledger s' = [] ∧
    reset s' = Done tt s' [] ∧
    (dtor_count_ s = 0 → tr = []) ∧
    (used s = 0 → dtor_count_ s = 0 → s' = s).
Proof.
  intros Hwf%reachable_wf.
  eexists _, _. split; [by apply reset_spec|].
  assert (wf {| offset_ := 0; dtors_ := dtors_ s; dtor_count_ := 0 |}) as Hwf'.
  { eapply wf_reset; [done|]. by apply reset_spec. }
  split_and!; [done|done|done| | |].
  - rewrite (reset_spec _ Hwf'). done.
  - intros Hc. unfold finalizers_lifo, ledger_objects, ledger.
    by rewrite Hc.
  - unfold used. intros Ho Hc. destruct s; cbn in *. by subst.
Qed.

(** C3: the objects constructed since the last reset, in the order
    [o1, ..., on], are finalized by [reset] in the order [on, ..., o1],
    each once. *)
Theorem reset_finalizes_in_reverse s0 p outs s1 tr :
  reachable s0 → dtor_count_ s0 = 0 → SReset ∉ p →
  exec p s0 = Done outs s1 tr →
  ∃ s2 tr',
    reset s1 = Done tt s2 tr' ∧
    tr' = destroy_event <$> reverse (constructed_of tr) ∧
    destroyed_of tr' = reverse (constructed_of tr).
Proof.
  intros Hwf%reachable_wf Hc Hnr Hex.
  assert (wf s1) as Hwf1 by (eapply exec_wf; [done|]; by rewrite Hex).
  assert (ledger_objects s1 = constructed_of tr) as Hl.
  { rewrite (exec_ledger _ _ _ _ _ Hwf Hnr Hex).
    unfold ledger_objects, ledger. by rewrite Hc. }
  eexists _, _. split; [by apply reset_spec|].
  unfold finalizers_lifo. rewrite Hl. split; [done|].
  generalize (reverse (constructed_of tr)) as l.
  induction l as [|[T a] l IH]; [done|]. cbn. f_equal. exact IH.
Qed.

(** C7: a sequence of [make] requests that succeeded on an empty arena
    succeeds again after [reset], with the same results: every object is
    placed at the address it had in the first run; right after the
    [reset], [used()] is 0. *)
Theorem replay_after_reset s0 p outs s1 tr :
  reachable s0 → used s0 = 0 → dtor_count_ s0 = 0 →
  exec p s0 = Done outs s1 tr → Forall succeeded outs →
  ∃ s2 tr2 s3,
    reset s1 = Done tt s2 tr2 ∧ used s2 = 0 ∧
    exec p s2 = Done outs s3 tr.
Proof.
  intros Hwf%reachable_wf Ho Hc Hex _.
  assert (wf s1) as Hwf1 by (eapply exec_wf; [done|]; by rewrite Hex).
  set (s2 := {| offset_ := 0; dtors_ := dtors_ s1; dtor_count_ := 0 |}).
  assert (wf s2) as Hwf2.
  { eapply wf_reset; [exact Hwf1|]. by apply reset_spec. }
  assert (same_view s0 s2) as Hv.
  { unfold same_view, ledger, used in *. rewrite Ho, Hc. cbn.
    by rewrite !take_0. }
  pose proof (exec_same_view p s0 s2 Hwf Hwf2 Hv) as Hsim.
  rewrite Hex in Hsim.
  destruct (exec p s2) as [outs' s3 tr'| | |] eqn:E2; cbn in Hsim; try done.
  destruct Hsim as (<- & <- & _).
  exists s2, (finalizers_lifo s1), s3.
  split; [by apply reset_spec|done].
Qed.

(** C8: the destructor is one call of [reset], whatever state the arena
    is in: it runs every outstanding finalizer, last added first; and it
    runs when the owning scope is left, by its end or by an exception. *)
Theorem teardown_is_one_reset p :
  (∀ s, destructor s = reset s) ∧
  (∀ s, reachable s →
     ∃ s', destructor s = Done tt s' (finalizers_lifo s)) ∧
  (∀ outs s tr, exec p init = Done outs s tr →
     with_arena p = Returned (tr ++ finalizers_lifo s)) ∧
  (∀ s tr, exec p init = Raise s tr →
     with_arena p = Unwound (tr ++ finalizers_lifo s)).
Proof.
  split; [done|]. split; [|split].
  - intros s Hwf%reachable_wf. eexists. by apply reset_spec.
  - intros outs s tr Hex.
    assert (wf s) as Hwf
      by (eapply exec_wf; [apply wf_init|]; by rewrite Hex).
    unfold with_arena, destructor. by rewrite Hex, (reset_spec s Hwf).
  - intros s tr Hex.
    assert (wf s) as Hwf
      by (eapply exec_wf; [apply wf_init|]; by rewrite Hex).
    unfold with_arena, destructor. by rewrite Hex, (reset_spec s Hwf).
Qed.

(** C10: when the constructor of [T] throws after the bytes were
    reserved, the exception leaves [make], no entry is added to the
    ledger, and the offset stays advanced past the block: later calls of
    [make] do not go back below it, and only [reset] rewinds it. *)
Theorem make_ctor_throw_keeps_bytes s T :
  reachable s → supported T → fits s T →
  ∃ s',
    make T CtorThrows s = Raise s' [] ∧
    dtors_ s' = dtors_ s ∧ dtor_count_ s' = dtor_count_ s ∧
    ledger s' = ledger s ∧
    offset_ s' = round_up (offset_ s) (align_of T) + size_of T ∧
    offset_ s < offset_ s' ∧
    (∀ s'', active s' s'' → offset_ s' ≤ offset_ s'') ∧
    (∃ s'' tr, reset s' = Done tt s'' tr ∧ offset_ s'' = 0).
Proof.
  intros Hwf%reachable_wf HT Hfit.
  pose proof (make_throw s T Hwf HT Hfit) as Hmk.
  pose proof (wf_make_raise _ _ _ _ _ Hwf Hmk) as Hwf'.
  exists (bumped s T). repeat split; try done.
  - by apply bumped_offset.
  - intros s'' Hact. by apply (active_offset _ _ Hact Hwf').
  - eexists _, _. split; [by apply reset_spec|done].
Qed.

(** C1, as the code has it: once [MaxDtors] objects have been constructed
    since the last reset, a further [make] whose bytes fit and whose
    constructor returns reserves the bytes, constructs the object, and
    only then finds the ledger full: it prints a message and aborts the
    process.  Nothing runs afterwards, no finalizer either. *)
Theorem ledger_exhaustion_aborts s0 p outs s1 tr T :
  reachable s0 → dtor_count_ s0 = 0 →
  exec p s0 = Done outs s1 tr → Forall succeeded outs →
  Z.of_nat (length p) = MaxDtors →
  supported T → fits s1 T →
  dtor_count_ s1 = MaxDtors ∧
  make T CtorReturns s1
  = Abort [Constructed T (place s1 T);
           Puts "Too many objects for destructor list"] ∧
  exec (p ++ [STryMake T CtorReturns]) s0 = Abort (tr ++ abort_trace s1 T) ∧
  (s0 = init →
   with_arena (p ++ [STryMake T CtorReturns])
   = Terminated (tr ++ abort_trace s1 T)).
Proof.
  intros Hwf%reachable_wf Hc Hex Hall Hlen HT Hfit.
  assert (wf s1) as Hwf1 by (eapply exec_wf; [done|]; by rewrite Hex).
  assert (dtor_count_ s1 = MaxDtors) as Hfull.
  { rewrite (exec_count _ _ _ _ _ Hwf Hex Hall). lia. }
  pose proof (make_full s1 T Hwf1 HT Hfit Hfull) as Hmk.
  assert (exec (p ++ [STryMake T CtorReturns]) s0
          = Abort (tr ++ abort_trace s1 T)) as Happ.
  { rewrite (exec_app_done _ _ _ _ _ _ Hex), exec_cons.
    cbn [exec_stmt]. by rewrite Hmk. }
  repeat split; try done.
  intros ->. unfold with_arena. by rewrite Happ.
Qed.

(** *** Further properties of the arena *)

Lemma ledger_objects_length s :
  wf s → length (ledger_objects s) = Z.to_nat (dtor_count_ s).
Proof.
  intros (_ & Hc & Hlen & Hall). unfold ledger_objects.
  transitivity (length (ledger s)).
  - induction Hall as [|[[|T] p] l Hx _ IH]; [done|done|]. cbn. by rewrite IH.
  - unfold ledger. rewrite length_take. lia.
Qed.

(** The class invariant: [used()] never exceeds [capacity()], the count
    never exceeds [MaxDtors], the array keeps its [MaxDtors] elements, and
    the entries in use are exactly [dtor_count_] non-null finalizers. *)
Theorem arena_invariant s :
  reachable s →
  0 ≤ used s ≤ capacity ∧
  0 ≤ dtor_count_ s ≤ MaxDtors ∧
  length (dtors_ s) = Z.to_nat MaxDtors ∧
  length (ledger_objects s) = Z.to_nat (dtor_count_ s) ∧
  Forall (λ e, fn e ≠ nullfn) (ledger s).
Proof.
  intros Hwf%reachable_wf. pose proof (ledger_objects_length s Hwf).
  destruct Hwf as (? & ? & ? & ?). done.
Qed.

(** The store [dtors_[dtor_count_++] = DtorEntry{&destroy<T>, obj}] of a
    successful [make] lands inside the array, at the first free slot; no
    other slot changes and the count grows by one. *)
Theorem push_dtor_store_in_bounds s T c p s' tr :
  reachable s → make T c s = Done (Some p) s' tr →
  (Z.to_nat (dtor_count_ s) < length (dtors_ s))%nat ∧
  dtors_ s' !! Z.to_nat (dtor_count_ s) = Some {| fn := destroy T; ptr := p |} ∧
  (∀ j, j ≠ Z.to_nat (dtor_count_ s) → dtors_ s' !! j = dtors_ s !! j) ∧
  dtor_count_ s' = dtor_count_ s + 1.
Proof.
  intros (Ho & Hc & Hlen & Hall)%reachable_wf. rewrite make_unfold; cbv zeta.
  destruct (block_end s T >? N); [done|].
  destruct c; [|done].
  destruct (dtor_count_ s >=? MaxDtors) eqn:Hfull; [done|].
  rewrite Z.geb_leb, Z.leb_gt in Hfull.
  intros [= <- <- _]. cbn.
  assert (Z.to_nat (dtor_count_ s) < length (dtors_ s))%nat by lia.
  split_and!; [done| | |].
  - by apply list_lookup_insert_eq.
  - intros j Hj. by apply list_lookup_insert_ne.
  - apply wrap_small. lia.
Qed.

Lemma exec_stmt_defined st s : wf s → exec_stmt st s ≠ Undefined.
Proof.
  intros Hwf. destruct st as [T c|T c| |]; cbn; [| | |done].
  - pose proof (make_never_undefined s T c). by destruct (make T c s).
  - pose proof (make_never_undefined s T c). by destruct (make T c s).
  - by rewrite (reset_spec s Hwf).
Qed.

Lemma exec_defined p s : wf s → exec p s ≠ Undefined.
Proof.
  revert s. induction p as [|st rest IH]; intros s Hwf; [done|].
  rewrite exec_cons.
  pose proof (exec_stmt_defined st s Hwf) as Hst.
  pose proof (exec_stmt_wf st s) as Hwf1.
  destruct (exec_stmt st s) as [o s1 tr1| | |]; try done.
  specialize (IH s1 (Hwf1 _ _ Hwf eq_refl)).
  by destruct (exec rest s1).
Qed.

(** No call sequence on an arena has undefined behaviour: [reset] never
    reads outside [dtors_] and never calls through a null [fn]. *)
Theorem no_undefined_behaviour s p :
  reachable s →
  exec p s ≠ Undefined ∧ reset s ≠ Undefined ∧
  with_arena p ≠ UndefinedExit.
Proof.
  intros Hwf%reachable_wf. split_and!.
  - by apply exec_defined.
  - by rewrite (reset_spec s Hwf).
  - unfold with_arena, destructor.
    pose proof (exec_defined p init wf_init) as Hd.
    pose proof (exec_wf p init) as Hf.
    destruct (exec p init) as [outs s1 tr|s1 tr|tr|]; try done.
    + by rewrite (reset_spec s1 (Hf _ _ wf_init eq_refl)).
    + by rewrite (reset_spec s1 (Hf _ _ wf_init eq_refl)).
Qed.

(** [make] ends the process only when the bytes fit, the constructor has
    returned and the ledger is full; an exception leaves it exactly when
    the bytes fit and the constructor throws, full ledger or not. *)
Theorem make_abort_and_throw_conditions s T c :
  reachable s → supported T →
  ((∃ tr, make T c s = Abort tr)
   ↔ fits s T ∧ c = CtorReturns ∧ dtor_count_ s = MaxDtors) ∧
  ((∃ s' tr, make T c s = Raise s' tr) ↔ fits s T ∧ c = CtorThrows).
Proof.
  intros Hwf%reachable_wf HT. pose proof Hwf as (_ & Hc & _).
  rewrite make_cases by done. split.
  - split.
    + intros [tr E]. case_bool_decide; [|done]. destruct c; [|done].
      case_bool_decide; [done|]. split_and!; [done..|lia].
    + intros (Hfit & -> & Hfull).
      rewrite bool_decide_eq_true_2 by done.
      rewrite bool_decide_eq_false_2 by lia. eauto.
  - split.
    + intros (s' & tr & E). case_bool_decide; [|done].
      destruct c; [by case_bool_decide|done].
    + intros (Hfit & ->). rewrite bool_decide_eq_true_2 by done. eauto.
Qed.

(** What a successful [make<T>] costs: [used()] moves to the rounded-up
    offset plus [sizeof(T)], at least [sizeof(T)] and less than
    [sizeof(T) + alignof(T)] bytes further; from an offset that is already
    a multiple of [alignof(T)] there is no padding. *)
Theorem make_used_growth s T c p s' tr :
  reachable s → supported T → make T c s = Done (Some p) s' tr →
  used s' = round_up (used s) (align_of T) + size_of T ∧
  p = buffer_ + used s' - size_of T ∧
  size_of T ≤ used s' - used s < size_of T + align_of T ∧
  ((align_of T | used s) → used s' = used s + size_of T ∧ p = buffer_ + used s).
Proof.
  intros Hwf%reachable_wf HT Hmk.
  apply make_some_inv in Hmk as (_ & _ & _ & -> & -> & _); [|done..].
  destruct HT as (_ & Hp2 & _). pose proof (is_pow2_pos _ Hp2) as Hpos.
  pose proof (round_up_bounds (align_of T) (offset_ s) Hpos).
  unfold used, place; cbn. split_and!; try lia.
  intros Hdiv.
  destruct (round_up_least (align_of T) (offset_ s) Hpos) as (_ & _ & Hmin).
  specialize (Hmin (offset_ s) Hdiv ltac:(lia)). lia.
Qed.

Lemma active_count s s' :
  active s s' → wf s → dtor_count_ s ≤ dtor_count_ s'.
Proof.
  induction 1 as [s|s T c r s1 tr s2 HT Hmk _ IH|s T c s1 tr s2 HT Hmk _ IH];
    intros Hwf; [done| |].
  - pose proof (wf_make_done _ _ _ _ _ _ Hwf Hmk) as Hwf1.
    specialize (IH Hwf1). destruct r as [p|].
    + apply make_some_inv in Hmk as (_ & _ & _ & _ & -> & _); [|done..].
      cbn in IH. lia.
    + apply make_none_inv in Hmk as (_ & -> & _); done.
  - pose proof (wf_make_raise _ _ _ _ _ Hwf Hmk) as Hwf1.
    specialize (IH Hwf1).
    apply make_raise_inv in Hmk as (_ & _ & -> & _); done.
Qed.

(** Between two resets neither [used()] nor the number of ledger entries
    ever goes down: nothing is given back before [reset]. *)
Theorem used_monotone_between_resets s s' :
  reachable s → active s s' →
  used s ≤ used s' ∧ dtor_count_ s ≤ dtor_count_ s'.
Proof.
  intros Hwf%reachable_wf Hact. split.
  - by apply (active_offset _ _ Hact Hwf).
  - by apply active_count.
Qed.

(** Remaining space decides: with fewer than [sizeof(T)] bytes left
    [make<T>] returns null and changes nothing, whatever the alignment; in
    particular a full arena rejects every request.  With
    [sizeof(T) + alignof(T) - 1] bytes left the bytes always fit. *)
Theorem make_remaining_space s T c :
  reachable s → supported T →
  (capacity - used s < size_of T → make T c s = Done None s []) ∧
  (size_of T + align_of T - 1 ≤ capacity - used s → fits s T).
Proof.
  intros Hwf%reachable_wf HT.
  pose proof HT as (_ & Hp2 & _). pose proof (is_pow2_pos _ Hp2) as Hpos.
  pose proof (round_up_bounds (align_of T) (offset_ s) Hpos).
  unfold capacity, used. split.
  - intros Hlt. apply make_nofit; [done..|]. unfold fits. lia.
  - intros Hge. unfold fits. lia.
Qed.

(** After [reset] the arena cannot be told from a fresh one: every
    program, whether it returns, throws or aborts, ends the same way with
    the same results, addresses and events as on a newly constructed
    arena. *)
Theorem reset_as_fresh s s' tr p :
  reachable s → reset s = Done tt s' tr →
  same_result (exec p s') (exec p init).
Proof.
  intros Hwf%reachable_wf Hr.
  pose proof (wf_reset _ _ _ Hwf Hr) as Hwf'.
  rewrite (reset_spec s Hwf) in Hr. injection Hr as <- _.
  apply exec_same_view; [done|apply wf_init|].
  unfold same_view, ledger, init; cbn. by rewrite !take_0.
Qed.

Lemma destroyed_of_app tr1 tr2 :
  destroyed_of (tr1 ++ tr2) = destroyed_of tr1 ++ destroyed_of tr2.
Proof. apply omap_app. Qed.

Lemma destroyed_of_destroy_events l :
  destroyed_of (destroy_event <$> l) = l.
Proof. induction l as [|[T a] l IH]; [done|]. cbn. f_equal. exact IH. Qed.

Lemma constructed_of_destroy_events l :
  constructed_of (destroy_event <$> l) = [].
Proof. induction l as [|[T a] l IH]; [done|]. exact IH. Qed.

Lemma make_final_balance s T c s' tr :
  wf s → final (make T c s) = Some (s', tr) →
  destroyed_of tr = [] ∧
  ledger_objects s' = ledger_objects s ++ constructed_of tr.
Proof.
  intros Hwf. destruct (make T c s) as [r s1 tr1|s1 tr1| |] eqn:E; cbn;
    [| |done..]; intros [= <- <-].
  - split; [|by eapply make_done_ledger].
    revert E. rewrite make_unfold; cbv zeta.
    destruct (_ >? N); [by intros [= _ _ <-]|].
    destruct c; [|done]. destruct (_ >=? MaxDtors); [done|].
    by intros [= _ _ <-].
  - apply make_raise_ledger in E as [-> ->]. by rewrite app_nil_r.
Qed.

(** Objects alive at the start or constructed on the way are, at the end,
    either finalized or still in the ledger. *)
Lemma exec_stmt_balance st s s' tr :
  wf s → final (exec_stmt st s) = Some (s', tr) →
  ledger_objects s ++ constructed_of tr
  ≡ₚ destroyed_of tr ++ ledger_objects s'.
Proof.
  intros Hwf. destruct st as [T c|T c| |]; cbn.
  - pose proof (make_final_balance s T c) as Hb.
    destruct (make T c s) as [r s1 tr1|s1 tr1| |]; cbn in *; [| |done..];
      intros [= <- <-]; destruct (Hb _ _ Hwf eq_refl) as [-> ->]; done.
  - pose proof (make_final_balance s T c) as Hb.
    destruct (make T c s) as [r s1 tr1|s1 tr1| |]; cbn in *; [| |done..];
      intros [= <- <-]; destruct (Hb _ _ Hwf eq_refl) as [-> ->]; done.
  - rewrite (reset_spec s Hwf). cbn. intros [= <- <-].
    unfold finalizers_lifo.
    rewrite constructed_of_destroy_events, destroyed_of_destroy_events.
    unfold ledger_objects at 3, ledger; cbn. rewrite take_0, !app_nil_r.
    by rewrite reverse_Permutation.
  - intros [= <- <-]. by rewrite app_nil_r.
Qed.

Lemma exec_balance p s s' tr :
  wf s → final (exec p s) = Some (s', tr) →
  ledger_objects s ++ constructed_of tr
  ≡ₚ destroyed_of tr ++ ledger_objects s'.
Proof.
  revert s s' tr. induction p as [|st rest IH]; intros s s' tr Hwf.
  { intros [= <- <-]. by rewrite app_nil_r. }
  rewrite exec_cons.
  pose proof (exec_stmt_balance st s) as Hst.
  pose proof (exec_stmt_wf st s) as Hwf1.
  destruct (exec_stmt st s) as [o s1 tr1|s1 tr1| |]; cbn; [| |done..].
  - specialize (Hst _ _ Hwf eq_refl). specialize (Hwf1 _ _ Hwf eq_refl).
    specialize (IH s1).
    assert (∀ s2 tr2, final (exec rest s1) = Some (s2, tr2) →
              ledger_objects s ++ constructed_of (tr1 ++ tr2)
              ≡ₚ destroyed_of (tr1 ++ tr2) ++ ledger_objects s2) as Hgo.
    { intros s2 tr2 E2. specialize (IH _ _ Hwf1 E2).
      rewrite constructed_of_app, destroyed_of_app, app_assoc, Hst.
      rewrite <- !app_assoc. f_equiv. exact IH. }
    destruct (exec rest s1) as [os s2 tr2|s2 tr2| |]; cbn; [| |done..];
      intros [= <- <-]; by apply Hgo.
  - intros [= <- <-]. by apply Hst.
Qed.

(** However the owning scope is left, by its end or by an exception, the
    objects finalized up to then are exactly the objects constructed, each
    as often as it was constructed: none is leaked and none is finalized
    twice, across any number of resets. *)
Theorem scope_exit_finalizes_every_object p tr :
  with_arena p = Returned tr ∨ with_arena p = Unwound tr →
  destroyed_of tr ≡ₚ constructed_of tr.
Proof.
  unfold with_arena, destructor.
  pose proof (exec_balance p init) as Hb.
  pose proof (exec_wf p init) as Hf.
  assert (∀ s tr1, final (exec p init) = Some (s, tr1) →
            destroyed_of (tr1 ++ finalizers_lifo s)
            ≡ₚ constructed_of (tr1 ++ finalizers_lifo s)) as Hgo.
  { intros s tr1 E. specialize (Hb _ _ wf_init E).
    rewrite constructed_of_app, destroyed_of_app. unfold finalizers_lifo.
    rewrite constructed_of_destroy_events, destroyed_of_destroy_events.
    rewrite app_nil_r, reverse_Permutation.
    unfold ledger_objects at 1, ledger, init in Hb; cbn in Hb.
    rewrite take_0 in Hb. by rewrite <- Hb. }
  destruct (exec p init) as [outs s tr1|s tr1|tr1|]; cbn in *.
  - rewrite (reset_spec s (Hf _ _ wf_init eq_refl)).
    intros [[= <-]|[=]]. by apply Hgo.
  - rewrite (reset_spec s (Hf _ _ wf_init eq_refl)).
    intros [[=]|[= <-]]. by apply Hgo.
  - by intros [|].
  - by intros [|].
Qed.

Lemma packed_bounds lo l hi :
  packed lo l hi →
  lo ≤ hi ∧
  ∀ T a, (T, a) ∈ l →
    lo ≤ a ∧ a + size_of T ≤ hi ∧ a mod align_of T = 0.
Proof.
  revert lo. induction l as [|[T a] l IH]; intros lo; cbn.
  { intros Hle. split; [done|]. by intros T a ?%elem_of_nil. }
  intros (Hlo & Hal & Hsz & Hp). destruct (IH _ Hp) as [Hle Hin].
  split; [lia|]. intros T' a' [[= -> ->]|Hel]%elem_of_cons.
  - split_and!; [done|lia|done].
  - destruct (Hin _ _ Hel) as (? & ? & ?). split_and!; [lia|done|done].
Qed.

Lemma packed_ordered lo l hi i j TA a TB b :
  packed lo l hi → (i < j)%nat →
  l !! i = Some (TA, a) → l !! j = Some (TB, b) → a + size_of TA ≤ b.
Proof.
  revert lo i j. induction l as [|[T x] l IH]; intros lo i j; [done|].
  cbn [packed]. intros (Hlo & Hal & Hsz & Hp) Hij Hi Hj.
  destruct j as [|j]; [lia|]. cbn in Hj.
  destruct i as [|i].
  - injection Hi as -> ->.
    destruct (packed_bounds _ _ _ Hp) as [_ Hin].
    apply (Hin TB b). by eapply list_elem_of_lookup_2.
  - cbn in Hi. eapply (IH _ i j); [done|lia|done|done].
Qed.

Lemma packed_hi_mono lo l hi hi' :
  packed lo l hi → hi ≤ hi' → packed lo l hi'.
Proof.
  revert lo. induction l as [|[T a] l IH]; intros lo; cbn; [lia|].
  intros (? & ? & ? & Hp) Hle. split_and!; [done..|]. by apply IH.
Qed.

Lemma packed_snoc lo l hi T a hi' :
  packed lo l hi → hi ≤ a → a mod align_of T = 0 → 0 < size_of T →
  a + size_of T ≤ hi' →
  packed lo (l ++ [(T, a)]) hi'.
Proof.
  revert lo. induction l as [|[T' a'] l IH]; intros lo; cbn.
  { intros. split_and!; [lia|done..]. }
  intros (? & ? & ? & Hp) ? ? ? ?. split_and!; [done..|]. by apply IH.
Qed.

Lemma place_aligned s T : supported T → place s T mod align_of T = 0.
Proof.
  intros (Hsz & Hp2 & Hal). pose proof (is_pow2_pos _ Hp2) as Hpos.
  destruct (round_up_least (align_of T) (offset_ s) Hpos) as (Hdiv & _).
  unfold place. apply Z.mod_divide; [lia|].
  apply Z.divide_add_r; [|done].
  etrans; [|exact buffer_aligned]. by apply is_pow2_divide.
Qed.

Lemma reachable_packed s :
  reachable s → packed buffer_ (ledger_objects s) (buffer_ + offset_ s).
Proof.
  induction 1 as [|s T c r s' tr Hr IH HT Hmk|s T c s' tr Hr IH HT Hmk
                  |s s' tr Hr IH Hrs].
  - unfold ledger_objects, ledger, init; cbn. rewrite take_0. cbn. lia.
  - pose proof (reachable_wf _ Hr) as Hwf.
    pose proof (make_done_ledger _ _ _ _ _ _ Hwf Hmk) as Hl.
    destruct r as [p|].
    + apply make_some_inv in Hmk as (_ & _ & _ & -> & -> & ->); [|done..].
      rewrite Hl. cbn.
      pose proof HT as (Hsz & Hp2 & _).
      pose proof (round_up_bounds (align_of T) (offset_ s) (is_pow2_pos _ Hp2)).
      eapply packed_snoc; [exact IH|unfold place; lia|by apply place_aligned
                          |lia|unfold place; lia].
    + apply make_none_inv in Hmk as (_ & -> & _); done.
  - pose proof (reachable_wf _ Hr) as Hwf.
    destruct (make_raise_ledger _ _ _ _ _ Hmk) as [-> _].
    apply make_raise_inv in Hmk as (_ & _ & -> & _); [|done..].
    pose proof (bumped_offset s T Hwf HT).
    eapply packed_hi_mono; [exact IH|lia].
  - pose proof (reachable_wf _ Hr) as Hwf.
    rewrite (reset_spec s Hwf) in Hrs. injection Hrs as <- _.
    unfold ledger_objects, ledger; cbn. rewrite take_0. cbn. lia.
Qed.

(** All live objects at once: in every state the objects of the ledger
    lie in construction order inside the used part of the buffer, each at
    a multiple of its alignment, and each ends before the next begins. *)
Theorem live_objects_packed s :
  reachable s →
  packed buffer_ (ledger_objects s) (buffer_ + used s) ∧
  (∀ T a, (T, a) ∈ ledger_objects s →
     buffer_ ≤ a ∧ a + size_of T ≤ buffer_ + used s ∧ a mod align_of T = 0) ∧
  (∀ i j TA a TB b, (i < j)%nat →
     ledger_objects s !! i = Some (TA, a) →
     ledger_objects s !! j = Some (TB, b) →
     a + size_of TA ≤ b).
Proof.
  intros Hp%reachable_packed. split_and!; [done| |].
  - by apply packed_bounds.
  - intros i j TA a TB b. by eapply packed_ordered.
Qed.

(** *** Further properties of [align_up] *)

Lemma multiple_below_top r a :
  is_pow2 a → a ≤ 2 ^ w → (a | r) → r < 2 ^ w → r + a ≤ 2 ^ w.
Proof.
  intros (k & Hk & ->) Hle [q ->] Hlt.
  assert (0 < 2 ^ k) as Hpos by (apply Z.pow_pos_nonneg; lia).
  assert (k ≤ w) by (apply (Z.pow_le_mono_r_iff 2); lia).
  assert (2 ^ w = 2 ^ (w - k) * 2 ^ k) as Ew.
  { rewrite <- Z.pow_add_r by lia. f_equal. lia. }
  rewrite Ew in Hle, Hlt |- *. clear MaxDtors_fits N_fits Ew.
  assert (q < 2 ^ (w - k)) by nia. nia.
Qed.

(** On a power of two and without overflow [align_up] leaves multiples of
    the alignment alone, is idempotent and monotone, and adds fewer than
    [alignment] bytes. *)
Theorem align_up_fixes_multiples x y a :
  is_pow2 a → 0 ≤ x ≤ y → y + a - 1 < 2 ^ w →
  ((a | x) → align_up w x a = x) ∧
  align_up w (align_up w x a) a = align_up w x a ∧
  align_up w x a ≤ align_up w y a ∧
  0 ≤ align_up w x a - x < a.
Proof.
  intros Hp2 Hxy Hov. pose proof (is_pow2_pos a Hp2) as Hpos.
  rewrite !(align_up_round_up x), (align_up_round_up y) by (done || lia).
  pose proof (round_up_bounds a x Hpos) as Hbx.
  destruct (round_up_least a x Hpos) as (Hdx & _ & Hmx).
  destruct (round_up_least a y Hpos) as (Hdy & Hly & _).
  assert (∀ z, 0 ≤ z → z + a - 1 < 2 ^ w → (a | z) → round_up z a = z) as Hfix.
  { intros z Hz Hzo Hdz. pose proof (round_up_bounds a z Hpos).
    destruct (round_up_least a z Hpos) as (_ & _ & Hmz).
    specialize (Hmz z Hdz ltac:(lia)). lia. }
  split_and!.
  - intros Hd. apply Hfix; [lia|lia|done].
  - pose proof (multiple_below_top (round_up x a) a Hp2 ltac:(lia) Hdx
                  ltac:(lia)).
    rewrite align_up_round_up; [|done|lia|lia]. apply Hfix; [lia|lia|done].
  - apply Hmx; [done|lia].
  - lia.
  - lia.
Qed.

(** At the top of the address range the sum [x + mask] wraps: for [x]
    within [alignment - 1] of [2 ^ w], [align_up] yields 0, not a value
    above [x]. *)
Theorem align_up_wraps_to_zero x a :
  is_pow2 a → a ≤ 2 ^ w → 2 ^ w - a < x < 2 ^ w →
  align_up w x a = 0.
Proof.
  intros (k & Hk & ->) Hle Hx.
  assert (0 < 2 ^ k) as Hpos by (apply Z.pow_pos_nonneg; lia).
  unfold align_up; cbv zeta.
  rewrite (wrap_small (2 ^ k - 1)) by lia.
  assert (wrap w (x + (2 ^ k - 1)) = x + 2 ^ k - 1 - 2 ^ w) as ->.
  { unfold wrap. symmetry. apply (Z.mod_unique_pos _ _ 1); lia. }
  pose proof (land_wrap_lnot_ones (x + 2 ^ k - 1 - 2 ^ w) k Hk) as E.
  rewrite Z.ones_equiv, <- Z.sub_1_r in E. rewrite E by lia.
  rewrite Z.div_small by lia. done.
Qed.

(** *** Objects of one type *)

Lemma make_unpadded s T :
  wf s → supported T → (align_of T | offset_ s) →
  offset_ s + size_of T ≤ N → dtor_count_ s < MaxDtors →
  make T CtorReturns s
  = Done (Some (buffer_ + offset_ s)) (pushed s T)
         [Constructed T (buffer_ + offset_ s)] ∧
  offset_ (pushed s T) = offset_ s + size_of T.
Proof.
  intros Hwf HT Hdiv Hle Hc. pose proof Hwf as (Ho & _).
  pose proof HT as (_ & Hp2 & _). pose proof (is_pow2_pos _ Hp2) as Hpos.
  pose proof (round_up_bounds (align_of T) (offset_ s) Hpos).
  destruct (round_up_least (align_of T) (offset_ s) Hpos) as (_ & _ & Hmin).
  specialize (Hmin (offset_ s) Hdiv ltac:(lia)).
  assert (round_up (offset_ s) (align_of T) = offset_ s) as E by lia.
  rewrite make_ok; [|done|done|unfold fits; lia|done].
  unfold place; cbn. by rewrite E.
Qed.

Lemma exec_same_type s T k :
  wf s → supported T → (align_of T | size_of T) → (align_of T | offset_ s) →
  offset_ s + Z.of_nat k * size_of T ≤ N →
  dtor_count_ s + Z.of_nat k ≤ MaxDtors →
  ∃ s' tr,
    exec (replicate k (STryMake T CtorReturns)) s
    = Done ((λ i : nat, Got (buffer_ + offset_ s + Z.of_nat i * size_of T))
              <$> seq 0 k) s' tr ∧
    wf s' ∧
    offset_ s' = offset_ s + Z.of_nat k * size_of T ∧
    dtor_count_ s' = dtor_count_ s + Z.of_nat k.
Proof.
  revert s. induction k as [|k IH]; intros s Hwf HT Hsz Hdiv Hle Hc.
  { exists s, []. cbn. split_and!; [done|done|lia|lia]. }
  pose proof HT as (Hpos & _ & _).
  destruct (make_unpadded s T) as [Hmk Hoff]; [done|done|done|nia|lia|].
  pose proof (wf_make_done _ _ _ _ _ _ Hwf Hmk) as Hwf1.
  destruct (IH (pushed s T)) as (s' & tr & E & Hwf' & Ho' & Hc');
    [done|done|done| | | |].
  { rewrite Hoff. by apply Z.divide_add_r. }
  { rewrite Hoff. lia. }
  { cbn. lia. }
  exists s', ([Constructed T (buffer_ + offset_ s)] ++ tr).
  split_and!; [|done| |].
  - rewrite Hoff in E.
    cbn [replicate]. rewrite exec_cons. cbn [exec_stmt]. rewrite Hmk.
    cbn [handle]. rewrite E. cbn [after app seq]. rewrite fmap_cons.
    f_equal. f_equal; [f_equal; lia|].
    rewrite <- fmap_S_seq, <- list_fmap_compose.
    apply list_fmap_ext. intros i j _. cbn. f_equal. lia.
  - rewrite Ho', Hoff. lia.
  - rewrite Hc'. cbn. lia.
Qed.

(** Objects of one type whose size is a multiple of its alignment, as
    [sizeof] always is, are placed back to back without padding: on a
    fresh arena [k] of them succeed when [k * sizeof(T)] bytes and [k]
    ledger slots are there, the [i]-th at [buffer_ + i * sizeof(T)], and
    the next [make] returns null once another [sizeof(T)] bytes would
    exceed the capacity. *)
Theorem same_type_objects_pack_densely T k :
  supported T → (align_of T | size_of T) →
  Z.of_nat k * size_of T ≤ capacity → Z.of_nat k ≤ MaxDtors →
  ∃ s tr,
    exec (replicate k (STryMake T CtorReturns)) init
    = Done ((λ i : nat, Got (buffer_ + Z.of_nat i * size_of T)) <$> seq 0 k)
           s tr ∧
    used s = Z.of_nat k * size_of T ∧
    dtor_count_ s = Z.of_nat k ∧
    (capacity < Z.of_nat (S k) * size_of T →
     make T CtorReturns s = Done None s []).
Proof.
  intros HT Hsz Hle Hc.
  destruct (exec_same_type init T k wf_init HT Hsz) as (s & tr & E & Hwf & Ho & Hn).
  { cbn. apply Z.divide_0_r. }
  { cbn. unfold capacity in Hle. lia. }
  { cbn. lia. }
  exists s, tr. cbn in E, Ho, Hn. split_and!.
  - rewrite E. f_equal. apply list_fmap_ext. intros i j _. cbn. f_equal. lia.
  - unfold used. lia.
  - lia.
  - intros Hover. apply make_nofit; [done..|].
    pose proof HT as (_ & Hp2 & _).
    pose proof (round_up_bounds (align_of T) (offset_ s) (is_pow2_pos _ Hp2)).
    unfold fits, capacity in *. lia.
Qed.
End Arena.

(** ** The demo instance: [FixedArena<1024>] on an LP64 target

    [std::size_t] has 64 bits, [alignof(std::max_align_t)] is 16, the
    buffer sits at an address that is a multiple of 16. *)

(** In [main] the three widgets are constructed at offsets 0, 4 and 8,
    the explicit [reset] finalizes them last to first, and the destructor
    finds nothing left to do. *)
Example demo_trace :
  with_arena 64 1024 128 4096 demo
  = Returned [Constructed Widget 4096; Constructed Widget 4100;
              Constructed Widget 4104; Destroyed Widget 4104;
              Destroyed Widget 4100; Destroyed Widget 4096].
Proof. by vm_compute. Qed.

(** After the three widgets [used()] is 12. *)
Example demo_used :
  ∃ outs s tr,
    exec 64 1024 128 4096 (take 3 demo) (init 128) = Done outs s tr ∧
    used s = 12 ∧ dtor_count_ s = 3.
Proof. eexists _, _, _. by vm_compute. Qed.

(** On an alignment that is no power of two the mask formula rounds
    nothing: [align_up 1 3] is 1. *)
Example align_up_not_pow2 : align_up 64 1 3 = 1.
Proof. by vm_compute. Qed.

Lemma align_up_least_multiple_witness :
  is_pow2 4 ∧ 0 ≤ 5 ∧ 5 + 4 - 1 < 2 ^ 64 ∧
  align_up 64 5 4 = 8 ∧ least_multiple_ge 4 5 (align_up 64 5 4).
Proof.
  assert (is_pow2 4) as H4 by (by exists 2).
  assert (5 + 4 - 1 < 2 ^ 64) as Hov by (by vm_compute).
  split_and!; [done|lia|done|by vm_compute|].
  apply (align_up_least_multiple 64 ltac:(lia) 5 4 H4 ltac:(lia) Hov).
Defined.

(** *** Instances at concrete arenas *)

Lemma supported_Widget : supported 64 16 Widget.
Proof. split; [by vm_compute|split; [by exists 2|by vm_compute]]. Defined.

Lemma reachable_one_widget : reachable 64 16 1024 2 4096 one_widget.
Proof.
  eapply (reach_make 64 16 1024 2 4096 (init 2) Widget CtorReturns);
    [apply reach_init|apply supported_Widget|by vm_compute].
Defined.

Lemma reachable_two_widgets : reachable 64 16 1024 2 4096 two_widgets.
Proof.
  eapply (reach_make 64 16 1024 2 4096 one_widget Widget CtorReturns);
    [apply reachable_one_widget|apply supported_Widget|by vm_compute].
Defined.

Lemma make_capacity_boundary_witness :
  ∃ s,
    reachable 64 16 8 2 4096 s ∧ supported 64 16 Byte ∧ used s = 8 ∧
    ¬ fits 8 s Byte ∧
    make 64 8 2 4096 Byte CtorReturns s = Done None s [].
Proof.
  set (s := {| offset_ := 8;
               dtors_ := [{| fn := destroy Block8; ptr := 4096 |}; null_entry];
               dtor_count_ := 1 |}).
  assert (supported 64 16 Block8) as HB
    by (split; [by vm_compute|split; [by exists 0|by vm_compute]]).
  assert (supported 64 16 Byte) as Hb
    by (split; [by vm_compute|split; [by exists 0|by vm_compute]]).
  assert (reachable 64 16 8 2 4096 s) as Hr.
  { eapply (reach_make 64 16 8 2 4096 (init 2) Block8 CtorReturns);
      [apply reach_init|exact HB|by vm_compute]. }
  assert (¬ fits 8 s Byte) as Hn by (by vm_compute).
  exists s. split_and!; [done..|].
  apply (make_capacity_boundary 64 16 8 2 4096 ltac:(lia) ltac:(by vm_compute)
           ltac:(by vm_compute) s Byte CtorReturns Hr Hb).
  exact Hn.
Defined.

Lemma make_address_aligned_in_buffer_witness :
  reachable 64 16 1024 2 4096 one_widget ∧ supported 64 16 Widget ∧
  make 64 1024 2 4096 Widget CtorReturns one_widget
  = Done (Some 4100) two_widgets [Constructed Widget 4100] ∧
  4100 mod align_of Widget = 0 ∧ 4096 ≤ 4100 < 4096 + 1024 ∧
  4100 + size_of Widget ≤ 4096 + 1024.
Proof.
  pose proof supported_Widget as HW.
  assert (make 64 1024 2 4096 Widget CtorReturns one_widget
          = Done (Some 4100) two_widgets [Constructed Widget 4100]) as E
    by (by vm_compute).
  split_and!; [apply reachable_one_widget|done|done|..];
    apply (make_address_aligned_in_buffer 64 16 1024 2 4096 ltac:(lia)
             ltac:(by exists 4) ltac:(by vm_compute) ltac:(by vm_compute)
             ltac:(by exists 256) one_widget Widget CtorReturns 4100
             two_widgets _ reachable_one_widget HW E).
Defined.

Lemma allocations_do_not_overlap_witness :
  reachable 64 16 1024 2 4096 (init 2) ∧ supported 64 16 Widget ∧
  make 64 1024 2 4096 Widget CtorReturns (init 2)
  = Done (Some 4096) one_widget [Constructed Widget 4096] ∧
  active 64 16 1024 2 4096 one_widget one_widget ∧
  make 64 1024 2 4096 Widget CtorReturns one_widget
  = Done (Some 4100) two_widgets [Constructed Widget 4100] ∧
  4096 + size_of Widget ≤ 4100.
Proof.
  pose proof supported_Widget as HW.
  assert (make 64 1024 2 4096 Widget CtorReturns (init 2)
          = Done (Some 4096) one_widget [Constructed Widget 4096]) as EA
    by (by vm_compute).
  assert (make 64 1024 2 4096 Widget CtorReturns one_widget
          = Done (Some 4100) two_widgets [Constructed Widget 4100]) as EB
    by (by vm_compute).
  split_and!; [apply reach_init|done|done|apply active_refl|done|].
  apply (allocations_do_not_overlap 64 16 1024 2 4096 ltac:(lia)
           ltac:(by vm_compute) ltac:(by vm_compute)
           (init 2) Widget CtorReturns 4096 one_widget _ one_widget
           Widget CtorReturns 4100 two_widgets _
           (reach_init _ _ _ _ _) HW HW EA (active_refl _ _ _ _ _ _) EB).
Defined.

Lemma reset_total_idempotent_witness :
  reachable 64 16 1024 2 4096 two_widgets ∧
  ∃ s' tr,
    reset two_widgets = Done tt s' tr ∧ used s' = 0 ∧ dtor_count_ s' = 0 ∧
    ledger s' = [] ∧ reset s' = Done tt s' [] ∧
    (dtor_count_ two_widgets = 0 → tr = []) ∧
    (used two_widgets = 0 → dtor_count_ two_widgets = 0 → s' = two_widgets).
Proof.
  split; [apply reachable_two_widgets|].
  apply (reset_total_idempotent 64 16 1024 2 4096 ltac:(lia)
           ltac:(by vm_compute) ltac:(by vm_compute)
           two_widgets reachable_two_widgets).
Defined.

Lemma reset_finalizes_in_reverse_witness :
  reachable 64 16 1024 2 4096 (init 2) ∧ dtor_count_ (init 2) = 0 ∧
  (SReset ∉ [SMake Widget CtorReturns; STryMake Widget CtorReturns]) ∧
  exec 64 1024 2 4096 [SMake Widget CtorReturns; STryMake Widget CtorReturns]
       (init 2)
  = Done [Got 4096; Got 4100] two_widgets
         [Constructed Widget 4096; Constructed Widget 4100] ∧
  ∃ s2 tr',
    reset two_widgets = Done tt s2 tr' ∧
    tr' = [Destroyed Widget 4100; Destroyed Widget 4096] ∧
    destroyed_of tr' = [(Widget, 4100); (Widget, 4096)].
Proof.
  assert (SReset ∉ [SMake Widget CtorReturns; STryMake Widget CtorReturns])
    as Hnr.
  { intros H. inversion H as [|? ? ? H1]; subst.
    inversion H1 as [|? ? ? H2]; subst. inversion H2. }
  assert (exec 64 1024 2 4096
            [SMake Widget CtorReturns; STryMake Widget CtorReturns] (init 2)
          = Done [Got 4096; Got 4100] two_widgets
                 [Constructed Widget 4096; Constructed Widget 4100]) as E
    by (by vm_compute).
  split_and!; [apply reach_init|done|done|done|].
  apply (reset_finalizes_in_reverse 64 16 1024 2 4096 ltac:(lia)
           ltac:(by vm_compute) ltac:(by vm_compute)
           (init 2) _ _ two_widgets _ (reach_init _ _ _ _ _) eq_refl Hnr E).
Defined.

Lemma replay_after_reset_witness :
  reachable 64 16 1024 2 4096 (init 2) ∧
  used (init 2) = 0 ∧ dtor_count_ (init 2) = 0 ∧
  exec 64 1024 2 4096 [SMake Widget CtorReturns; SMake Widget CtorReturns]
       (init 2)
  = Done [Got 4096; Got 4100] two_widgets
         [Constructed Widget 4096; Constructed Widget 4100] ∧
  Forall succeeded [Got 4096; Got 4100] ∧
  ∃ s2 tr2 s3,
    reset two_widgets = Done tt s2 tr2 ∧ used s2 = 0 ∧
    exec 64 1024 2 4096 [SMake Widget CtorReturns; SMake Widget CtorReturns] s2
    = Done [Got 4096; Got 4100] s3
           [Constructed Widget 4096; Constructed Widget 4100].
Proof.
  assert (Forall succeeded [Got 4096; Got 4100]) as Hall.
  { repeat constructor; by eexists. }
  assert (exec 64 1024 2 4096
            [SMake Widget CtorReturns; SMake Widget CtorReturns] (init 2)
          = Done [Got 4096; Got 4100] two_widgets
                 [Constructed Widget 4096; Constructed Widget 4100]) as E
    by (by vm_compute).
  split_and!; [apply reach_init|done|done|done|done|].
  apply (replay_after_reset 64 16 1024 2 4096 ltac:(lia)
           ltac:(by vm_compute) ltac:(by vm_compute)
           (init 2) _ _ two_widgets _ (reach_init _ _ _ _ _)
           eq_refl eq_refl E Hall).
Defined.

Lemma teardown_is_one_reset_witness :
  (∀ s, destructor s = reset s) ∧
  (∃ s', destructor two_widgets
         = Done tt s' [Destroyed Widget 4100; Destroyed Widget 4096]) ∧
  with_arena 64 1024 2 4096 [SMake Widget CtorReturns; SMake Widget CtorReturns]
  = Returned [Constructed Widget 4096; Constructed Widget 4100;
              Destroyed Widget 4100; Destroyed Widget 4096] ∧
  with_arena 64 1024 2 4096 [SMake Widget CtorReturns; SMake Widget CtorThrows]
  = Unwound [Constructed Widget 4096; Destroyed Widget 4096].
Proof.
  pose proof (teardown_is_one_reset 64 16 1024 2 4096 ltac:(lia)
                ltac:(by vm_compute) ltac:(by vm_compute)) as H.
  split_and!.
  - apply (H []).
  - apply (H []), reachable_two_widgets.
  - destruct (H [SMake Widget CtorReturns; SMake Widget CtorReturns])
      as (_ & _ & Hret & _).
    apply (Hret [Got 4096; Got 4100] two_widgets
                [Constructed Widget 4096; Constructed Widget 4100]).
    by vm_compute.
  - destruct (H [SMake Widget CtorReturns; SMake Widget CtorThrows])
      as (_ & _ & _ & Hunw).
    apply (Hunw {| offset_ := 8; dtors_ := [widget_entry 4096; null_entry];
                   dtor_count_ := 1 |} [Constructed Widget 4096]).
    by vm_compute.
Defined.

Lemma make_ctor_throw_keeps_bytes_witness :
  reachable 64 16 1024 2 4096 one_widget ∧ supported 64 16 Widget ∧
  fits 1024 one_widget Widget ∧
  ∃ s',
    make 64 1024 2 4096 Widget CtorThrows one_widget = Raise s' [] ∧
    dtors_ s' = dtors_ one_widget ∧ dtor_count_ s' = 1 ∧
    ledger s' = ledger one_widget ∧
    offset_ s' = round_up 4 4 + 4 ∧ 4 < offset_ s' ∧
    (∀ s'', active 64 16 1024 2 4096 s' s'' → offset_ s' ≤ offset_ s'') ∧
    (∃ s'' tr, reset s' = Done tt s'' tr ∧ offset_ s'' = 0).
Proof.
  pose proof supported_Widget as HW.
  assert (fits 1024 one_widget Widget) as Hfit by (by vm_compute).
  split_and!; [apply reachable_one_widget|done|done|].
  apply (make_ctor_throw_keeps_bytes 64 16 1024 2 4096 ltac:(lia)
           ltac:(by vm_compute) ltac:(by vm_compute)
           one_widget Widget reachable_one_widget HW Hfit).
Defined.

Lemma ledger_exhaustion_aborts_witness :
  reachable 64 16 1024 2 4096 (init 2) ∧ dtor_count_ (init 2) = 0 ∧
  exec 64 1024 2 4096 [STryMake Widget CtorReturns; STryMake Widget CtorReturns]
       (init 2)
  = Done [Got 4096; Got 4100] two_widgets
         [Constructed Widget 4096; Constructed Widget 4100] ∧
  Forall succeeded [Got 4096; Got 4100] ∧
  supported 64 16 Widget ∧ fits 1024 two_widgets Widget ∧
  dtor_count_ two_widgets = 2 ∧
  make 64 1024 2 4096 Widget CtorReturns two_widgets
  = Abort [Constructed Widget 4104;
           Puts "Too many objects for destructor list"].
Proof.
  pose proof supported_Widget as HW.
  assert (fits 1024 two_widgets Widget) as Hfit by (by vm_compute).
  assert (Forall succeeded [Got 4096; Got 4100]) as Hall.
  { repeat constructor; by eexists. }
  assert (exec 64 1024 2 4096
            [STryMake Widget CtorReturns; STryMake Widget CtorReturns] (init 2)
          = Done [Got 4096; Got 4100] two_widgets
                 [Constructed Widget 4096; Constructed Widget 4100]) as E
    by (by vm_compute).
  split_and!; [apply reach_init|done|done|done|done|done|..];
    apply (ledger_exhaustion_aborts 64 16 1024 2 4096 ltac:(lia)
             ltac:(by vm_compute) ltac:(by vm_compute)
             (init 2) _ _ two_widgets _ Widget (reach_init _ _ _ _ _)
             eq_refl E Hall eq_refl HW Hfit).
Defined.

(** C1, as the specification has it, fails on [FixedArena<1024>]: the
    129th [make<Widget>] does not come back with a null pointer; no run
    of 129 such calls comes back at all. *)
Lemma ledger_exhaustion_not_recoverable :
  ¬ ∃ outs s tr,
      exec 64 1024 128 4096 (replicate 129 (STryMake Widget CtorReturns))
           (init 128)
      = Done outs s tr ∧
      last outs = Some Null.
Proof.
  intros (outs & s & tr & E & _). vm_compute in E. discriminate E.
Qed.

(** *** Instances of the further properties *)

Lemma arena_invariant_witness :
  reachable 64 16 1024 2 4096 two_widgets ∧
  0 ≤ used two_widgets ≤ capacity 1024 ∧
  0 ≤ dtor_count_ two_widgets ≤ 2 ∧
  length (dtors_ two_widgets) = Z.to_nat 2 ∧
  length (ledger_objects two_widgets) = Z.to_nat (dtor_count_ two_widgets) ∧
  Forall (λ e, fn e ≠ nullfn) (ledger two_widgets).
Proof.
  split; [apply reachable_two_widgets|].
  apply (arena_invariant 64 16 1024 2 4096 ltac:(lia) ltac:(by vm_compute)
           ltac:(by vm_compute) two_widgets reachable_two_widgets).
Defined.

Lemma push_dtor_store_in_bounds_witness :
  reachable 64 16 1024 2 4096 one_widget ∧
  make 64 1024 2 4096 Widget CtorReturns one_widget
  = Done (Some 4100) two_widgets [Constructed Widget 4100] ∧
  (Z.to_nat (dtor_count_ one_widget) < length (dtors_ one_widget))%nat ∧
  dtors_ two_widgets !! Z.to_nat (dtor_count_ one_widget)
  = Some {| fn := destroy Widget; ptr := 4100 |} ∧
  (∀ j, j ≠ Z.to_nat (dtor_count_ one_widget) →
        dtors_ two_widgets !! j = dtors_ one_widget !! j) ∧
  dtor_count_ two_widgets = dtor_count_ one_widget + 1.
Proof.
  assert (make 64 1024 2 4096 Widget CtorReturns one_widget
          = Done (Some 4100) two_widgets [Constructed Widget 4100]) as E
    by (by vm_compute).
  split; [apply reachable_one_widget|]. split; [done|].
    apply (push_dtor_store_in_bounds 64 16 1024 2 4096 ltac:(lia)
             ltac:(by vm_compute) ltac:(by vm_compute)
             one_widget Widget CtorReturns 4100 two_widgets _
             reachable_one_widget E).
Defined.

Lemma no_undefined_behaviour_witness :
  reachable 64 16 1024 2 4096 two_widgets ∧
  exec 64 1024 2 4096 [SReset; SMake Widget CtorReturns] two_widgets
  ≠ Undefined ∧
  reset two_widgets ≠ Undefined ∧
  with_arena 64 1024 2 4096 [SReset; SMake Widget CtorReturns]
  ≠ UndefinedExit.
Proof.
  split; [apply reachable_two_widgets|].
  apply (no_undefined_behaviour 64 16 1024 2 4096 ltac:(lia)
           ltac:(by vm_compute) ltac:(by vm_compute)
           two_widgets _ reachable_two_widgets).
Defined.

Lemma make_abort_and_throw_conditions_witness :
  reachable 64 16 1024 2 4096 two_widgets ∧ supported 64 16 Widget ∧
  ((∃ tr, make 64 1024 2 4096 Widget CtorReturns two_widgets = Abort tr)
   ↔ fits 1024 two_widgets Widget ∧ CtorReturns = CtorReturns ∧
     dtor_count_ two_widgets = 2) ∧
  ((∃ s' tr, make 64 1024 2 4096 Widget CtorReturns two_widgets = Raise s' tr)
   ↔ fits 1024 two_widgets Widget ∧ CtorReturns = CtorThrows).
Proof.
  split; [apply reachable_two_widgets|]. split; [apply supported_Widget|].
    apply (make_abort_and_throw_conditions 64 16 1024 2 4096 ltac:(lia)
             ltac:(by vm_compute) ltac:(by vm_compute)
             two_widgets Widget CtorReturns reachable_two_widgets
             supported_Widget).
Defined.

Lemma make_used_growth_witness :
  reachable 64 16 1024 2 4096 one_widget ∧ supported 64 16 Widget ∧
  make 64 1024 2 4096 Widget CtorReturns one_widget
  = Done (Some 4100) two_widgets [Constructed Widget 4100] ∧
  used two_widgets = round_up (used one_widget) (align_of Widget) + size_of Widget ∧
  4100 = 4096 + used two_widgets - size_of Widget ∧
  size_of Widget ≤ used two_widgets - used one_widget
    < size_of Widget + align_of Widget ∧
  ((align_of Widget | used one_widget) →
   used two_widgets = used one_widget + size_of Widget ∧
   4100 = 4096 + used one_widget).
Proof.
  assert (make 64 1024 2 4096 Widget CtorReturns one_widget
          = Done (Some 4100) two_widgets [Constructed Widget 4100]) as E
    by (by vm_compute).
  split; [apply reachable_one_widget|]. split; [apply supported_Widget|].
  split; [done|].
    apply (make_used_growth 64 16 1024 2 4096 ltac:(lia)
             ltac:(by vm_compute) ltac:(by vm_compute)
             one_widget Widget CtorReturns 4100 two_widgets _
             reachable_one_widget supported_Widget E).
Defined.

Lemma active_one_two : active 64 16 1024 2 4096 one_widget two_widgets.
Proof.
  eapply (active_make 64 16 1024 2 4096 one_widget Widget CtorReturns);
    [apply supported_Widget|by vm_compute|apply active_refl].
Defined.

Lemma used_monotone_between_resets_witness :
  reachable 64 16 1024 2 4096 one_widget ∧
  active 64 16 1024 2 4096 one_widget two_widgets ∧
  used one_widget ≤ used two_widgets ∧
  dtor_count_ one_widget ≤ dtor_count_ two_widgets.
Proof.
  split; [apply reachable_one_widget|]. split; [apply active_one_two|].
    apply (used_monotone_between_resets 64 16 1024 2 4096 ltac:(lia)
             ltac:(by vm_compute) ltac:(by vm_compute)
             one_widget two_widgets reachable_one_widget active_one_two).
Defined.

Lemma make_remaining_space_witness :
  reachable 64 16 8 2 4096 (init 2) ∧ supported 64 16 Block8 ∧
  (capacity 8 - used (init 2) < size_of Block8 →
   make 64 8 2 4096 Block8 CtorReturns (init 2) = Done None (init 2) []) ∧
  (size_of Block8 + align_of Block8 - 1 ≤ capacity 8 - used (init 2) →
   fits 8 (init 2) Block8).
Proof.
  assert (supported 64 16 Block8) as HB
    by (split; [by vm_compute|split; [by exists 0|by vm_compute]]).
  split; [apply reach_init|]. split; [done|].
    apply (make_remaining_space 64 16 8 2 4096 ltac:(lia)
             ltac:(by vm_compute) ltac:(by vm_compute)
             (init 2) Block8 CtorReturns (reach_init _ _ _ _ _) HB).
Defined.

Lemma reset_as_fresh_witness :
  reachable 64 16 1024 2 4096 two_widgets ∧
  reset two_widgets
  = Done tt {| offset_ := 0; dtors_ := dtors_ two_widgets; dtor_count_ := 0 |}
         [Destroyed Widget 4100; Destroyed Widget 4096] ∧
  same_result
    (exec 64 1024 2 4096 [SMake Widget CtorReturns]
       {| offset_ := 0; dtors_ := dtors_ two_widgets; dtor_count_ := 0 |})
    (exec 64 1024 2 4096 [SMake Widget CtorReturns] (init 2)).
Proof.
  assert (reset two_widgets
          = Done tt {| offset_ := 0; dtors_ := dtors_ two_widgets;
                       dtor_count_ := 0 |}
                 [Destroyed Widget 4100; Destroyed Widget 4096]) as E
    by (by vm_compute).
  split_and!; [apply reachable_two_widgets|done|].
  apply (reset_as_fresh 64 16 1024 2 4096 ltac:(lia)
           ltac:(by vm_compute) ltac:(by vm_compute)
           two_widgets _ _ [SMake Widget CtorReturns]
           reachable_two_widgets E).
Defined.

Lemma scope_exit_finalizes_every_object_witness :
  with_arena 64 1024 2 4096
    [SMake Widget CtorReturns; SReset; SMake Widget CtorReturns]
  = Returned [Constructed Widget 4096; Destroyed Widget 4096;
              Constructed Widget 4096; Destroyed Widget 4096] ∧
  destroyed_of [Constructed Widget 4096; Destroyed Widget 4096;
                Constructed Widget 4096; Destroyed Widget 4096]
  ≡ₚ constructed_of [Constructed Widget 4096; Destroyed Widget 4096;
                     Constructed Widget 4096; Destroyed Widget 4096].
Proof.
  assert (with_arena 64 1024 2 4096
            [SMake Widget CtorReturns; SReset; SMake Widget CtorReturns]
          = Returned [Constructed Widget 4096; Destroyed Widget 4096;
                      Constructed Widget 4096; Destroyed Widget 4096]) as E
    by (by vm_compute).
  split; [done|].
  apply (scope_exit_finalizes_every_object 64 16 1024 2 4096 ltac:(lia)
           ltac:(by vm_compute) ltac:(by vm_compute) _ _ (or_introl E)).
Defined.

Lemma live_objects_packed_witness :
  reachable 64 16 1024 2 4096 two_widgets ∧
  packed 4096 (ledger_objects two_widgets) (4096 + used two_widgets) ∧
  (∀ T a, (T, a) ∈ ledger_objects two_widgets →
     4096 ≤ a ∧ a + size_of T ≤ 4096 + used two_widgets ∧
     a mod align_of T = 0) ∧
  (∀ i j TA a TB b, (i < j)%nat →
     ledger_objects two_widgets !! i = Some (TA, a) →
     ledger_objects two_widgets !! j = Some (TB, b) →
     a + size_of TA ≤ b).
Proof.
  split; [apply reachable_two_widgets|].
  apply (live_objects_packed 64 16 1024 2 4096 ltac:(lia) ltac:(by exists 4)
           ltac:(by vm_compute) ltac:(by vm_compute) ltac:(by exists 256)
           two_widgets reachable_two_widgets).
Defined.

Lemma align_up_fixes_multiples_witness :
  is_pow2 8 ∧ 0 ≤ 16 ≤ 21 ∧ 21 + 8 - 1 < 2 ^ 64 ∧
  ((8 | 16) → align_up 64 16 8 = 16) ∧
  align_up 64 (align_up 64 16 8) 8 = align_up 64 16 8 ∧
  align_up 64 16 8 ≤ align_up 64 21 8 ∧
  0 ≤ align_up 64 16 8 - 16 < 8.
Proof.
  assert (is_pow2 8) as H8 by (by exists 3).
  assert (21 + 8 - 1 < 2 ^ 64) as Hov by (by vm_compute).
  split; [done|]. split; [lia|]. split; [done|].
    apply (align_up_fixes_multiples 64 ltac:(lia) 16 21 8 H8 ltac:(lia) Hov).
Defined.

Lemma align_up_wraps_to_zero_witness :
  is_pow2 16 ∧ 16 ≤ 2 ^ 64 ∧ 2 ^ 64 - 16 < 2 ^ 64 - 3 < 2 ^ 64 ∧
  align_up 64 (2 ^ 64 - 3) 16 = 0.
Proof.
  assert (is_pow2 16) as H16 by (by exists 4).
  assert (16 ≤ 2 ^ 64) as Hle by (by vm_compute).
  assert (2 ^ 64 - 16 < 2 ^ 64 - 3 < 2 ^ 64) as Hx by (by vm_compute).
  split_and!; [done|done|apply Hx|apply Hx|].
  apply (align_up_wraps_to_zero 64 ltac:(lia) _ 16 H16 Hle Hx).
Defined.

(** A state no call sequence leads to: the count runs past the array, and
    [reset] reads outside it. *)
Example reset_outside_array :
  reset {| offset_ := 0; dtors_ := []; dtor_count_ := 1 |} = Undefined.
Proof. reflexivity. Qed.

Lemma same_type_objects_pack_densely_witness :
  supported 64 16 Widget ∧ (align_of Widget | size_of Widget) ∧
  Z.of_nat 3 * size_of Widget ≤ capacity 12 ∧ Z.of_nat 3 ≤ 128 ∧
  ∃ s tr,
    exec 64 12 128 4096 (replicate 3 (STryMake Widget CtorReturns)) (init 128)
    = Done ((λ i : nat, Got (4096 + Z.of_nat i * size_of Widget)) <$> seq 0 3)
           s tr ∧
    used s = Z.of_nat 3 * size_of Widget ∧
    dtor_count_ s = Z.of_nat 3 ∧
    (capacity 12 < Z.of_nat 4 * size_of Widget →
     make 64 12 128 4096 Widget CtorReturns s = Done None s []).
Proof.
  assert (align_of Widget | size_of Widget) as Hd by (by exists 1).
  assert (Z.of_nat 3 * size_of Widget ≤ capacity 12) as Hle by (by vm_compute).
  assert (Z.of_nat 3 ≤ 128) as Hc by (by vm_compute).
  split; [apply supported_Widget|]. split; [done|]. split; [done|].
  split; [done|].
  apply (same_type_objects_pack_densely 64 16 12 128 4096 ltac:(lia)
           ltac:(by vm_compute) ltac:(by vm_compute) Widget 3
           supported_Widget Hd Hle Hc).
Defined.

(** * Facts about the RAII logger *)

Section LoggerFacts.
Import RaiiLogger.

Lemma insert_fp (σ : store) i h j :
  fp_ ((<[i:=h]> σ) j) = if decide (i = j) then fp_ h else fp_ (σ j).
Proof.
  destruct (decide (i = j)) as [->|Hne].
  - by rewrite fn_lookup_insert.
  - by rewrite fn_lookup_insert_ne.
Qed.

Lemma streams_after_app open tr1 tr2 :
  streams_after open (tr1 ++ tr2)
  = streams_after (streams_after open tr1) tr2.
Proof.
  revert open. induction tr1 as [|c tr1 IH]; intros open; [done|].
  destruct c as [p m [f|]|s f|c f|f|f| |]; cbn; apply IH.
Qed.

Lemma safe_app open tr1 tr2 :
  safe open (tr1 ++ tr2)
  ↔ safe open tr1 ∧ safe (streams_after open tr1) tr2.
Proof.
  revert open. induction tr1 as [|c tr1 IH]; intros open; [cbn; tauto|].
  destruct c as [p m [f|]|s f|c f|f|f| |]; cbn; rewrite ?IH; tauto.
Qed.

(** Closing the handle at [i] in a tracked store. *)
Lemma close_tracks (σ : store) open i :
  tracks σ open →
  safe open (close (σ i)).2 ∧
  tracks (<[i := (close (σ i)).1]> σ) (streams_after open (close (σ i)).2).
Proof.
  intros [Huniq Hown]. unfold close.
  destruct (fp_ (σ i)) as [f|] eqn:Hi; cbn.
  - assert (f ∈ open) by (apply Hown; by exists i).
    split; [done|]. split.
    + intros a b g. rewrite !insert_fp.
      repeat case_decide; cbn; try done. apply Huniq.
    + intros g. rewrite elem_of_difference, elem_of_singleton, Hown. split.
      * intros [[k Hk] Hne]. exists k. rewrite insert_fp.
        case_decide; [subst; congruence|done].
      * intros [k Hk]. rewrite insert_fp in Hk.
        case_decide; [done|]. split; [by exists k|].
        intros ->. by specialize (Huniq _ _ _ Hi Hk).
  - split; [done|]. split.
    + intros a b g. rewrite !insert_fp.
      repeat case_decide; subst; rewrite ?Hi; try done. apply Huniq.
    + intros g. rewrite Hown. split; intros [k Hk]; exists k.
      * rewrite insert_fp. case_decide; [by subst|done].
      * rewrite insert_fp in Hk. case_decide; [by subst|done].
Qed.

Lemma run_op_tracks o (σ : store) open :
  tracks σ open → op_ok o σ →
  safe open (run_op o σ).2 ∧
  tracks (run_op o σ).1 (streams_after open (run_op o σ).2).
Proof.
  intros Htr Hok. pose proof Htr as [Huniq Hown].
  destruct o as [i path mode [f|]|new other|this other|i line|i]; cbn.
  - destruct Hok as [Hi Hfresh]. specialize (Hfresh f eq_refl).
    assert (f ∉ open) by (by rewrite Hown).
    split; [done|]. split.
    + intros a b g. rewrite !insert_fp.
      repeat case_decide; subst; cbn; try done.
      * intros [= <-] Hb. destruct Hfresh. by exists b.
      * intros Ha [= <-]. destruct Hfresh. by exists a.
      * apply Huniq.
    + intros g. rewrite elem_of_union, elem_of_singleton, Hown. split.
      * intros [[k Hk]| ->].
        -- exists k. rewrite insert_fp. case_decide; [subst; congruence|done].
        -- exists i. rewrite insert_fp. by case_decide.
      * intros [k Hk]. rewrite insert_fp in Hk.
        case_decide; [right; by injection Hk|left; by exists k].
  - done.
  - destruct Hok as [Hne Hnew]. split; [done|]. unfold move_construct. split.
    + intros a b g. rewrite !insert_fp.
      repeat case_decide; subst; cbn; try done.
      * intros Ho Hb. by specialize (Huniq _ _ _ Ho Hb).
      * intros Ha Ho. by specialize (Huniq _ _ _ Ha Ho).
      * apply Huniq.
    + intros g. rewrite Hown. split; intros [k Hk].
      * destruct (decide (k = other)) as [->|Hko].
        -- exists new. rewrite !insert_fp. repeat case_decide; done.
        -- exists k. rewrite !insert_fp.
           repeat case_decide; subst; try done. congruence.
      * rewrite !insert_fp in Hk.
        repeat case_decide; subst; cbn in Hk; try done; unfold owned; eauto.
  - unfold move_assign. case_decide as Hne; [|done].
    destruct (close_tracks σ open this Htr) as [Hsafe [Huniq1 Hown1]].
    assert (fp_ (close (σ this)).1 = None) as Hnull.
    { unfold close. by destruct (fp_ (σ this)) eqn:E. }
    destruct (close (σ this)) as [h tr]. cbn [fst snd] in *.
    assert (fp_ ((<[this:=h]> σ) this) = None) as Hthis.
    { rewrite insert_fp. by case_decide. }
    assert (∀ k,
      fp_ ((<[other:={| fp_ := None |}]>
              (<[this:={| fp_ := fp_ ((<[this:=h]> σ) other) |}]>
                 (<[this:=h]> σ))) k)
      = if decide (k = other) then None
        else if decide (k = this) then fp_ ((<[this:=h]> σ) other)
        else fp_ ((<[this:=h]> σ) k)) as Hval.
    { intros k. rewrite (insert_fp _ other), (insert_fp _ this).
      repeat case_decide; subst; cbn; congruence. }
    split; [done|]. split.
    + intros a b g. rewrite !Hval.
      repeat case_decide; try done; subst; intros Ha Hb;
        pose proof (Huniq1 _ _ _ Ha Hb); congruence.
    + intros g. rewrite Hown1. split; intros [k Hk].
      * destruct (decide (k = other)) as [->|Hko]; [exists this|exists k];
          rewrite Hval; repeat case_decide; subst; congruence.
      * rewrite Hval in Hk.
        repeat case_decide; try done; [by exists other|by exists k].
  - unfold write_line. destruct (fp_ (σ i)) as [f|] eqn:Hi; cbn.
    + assert (f ∈ open) by (apply Hown; by exists i).
      split; [done|]. split.
      * intros a b g. rewrite !insert_fp.
        repeat case_decide; subst; try done; apply Huniq.
      * intros g. rewrite Hown. split; intros [k Hk]; exists k.
        -- rewrite insert_fp. case_decide; by subst.
        -- rewrite insert_fp in Hk. case_decide; by subst.
    + split; [done|]. split.
      * intros a b g. rewrite !insert_fp.
        repeat case_decide; subst; try done; apply Huniq.
      * intros g. rewrite Hown. split; intros [k Hk]; exists k.
        -- rewrite insert_fp. case_decide; by subst.
        -- rewrite insert_fp in Hk. case_decide; by subst.
  - unfold FileHandle_delete.
    pose proof (close_tracks σ open i Htr) as Hc.
    by destruct (close (σ i)) as [h tr].
Qed.

Lemma run_tracks ops (σ : store) open :
  tracks σ open → run_ok ops σ →
  safe open (run ops σ).2 ∧
  tracks (run ops σ).1 (streams_after open (run ops σ).2).
Proof.
  revert σ open. induction ops as [|o rest IH]; intros σ open Htr; [done|].
  cbn [run run_ok]. intros [Hok Hrest].
  destruct (run_op_tracks o σ open Htr Hok) as [Hs1 Ht1].
  destruct (run_op o σ) as [σ1 tr1]; cbn in *.
  destruct (IH σ1 _ Ht1 Hrest) as [Hs2 Ht2].
  destruct (run rest σ1) as [σ2 tr2]; cbn in *.
  rewrite safe_app, streams_after_app. done.
Qed.

Lemma append_cons c s t :
  String.append (String c s) t = String c (String.append s t).
Proof. reflexivity. Qed.

Lemma append_empty_r s : String.append s EmptyString = s.
Proof. induction s as [|c s IH]; [done|]. by rewrite append_cons, IH. Qed.

Lemma append_String_assoc s1 s2 s3 :
  String.append (String.append s1 s2) s3
  = String.append s1 (String.append s2 s3).
Proof. induction s1 as [|c s1 IH]; [done|]. by rewrite !append_cons, IH. Qed.

Lemma written_app f tr1 tr2 :
  written f (tr1 ++ tr2) = String.append (written f tr1) (written f tr2).
Proof.
  induction tr1 as [|c tr1 IH]; [done|].
  destruct c as [p m r|s g|c g|g|g| |]; cbn; try done.
  - case_decide; [|done]. rewrite IH. symmetry. apply append_String_assoc.
  - case_decide; [|done]. by rewrite append_cons, IH.
Qed.

(** One call on a logger whose file is open and whose mutex is free. *)
Lemma act_open a L f :
  mu_ L = false → fp_ (file_ L) = Some f →
  act a L
  = (if throws a then Throws "Intentional exception after writing" else Ok)
      L [Lock; Fputs (c_str (match a with Log m | LogThenThrow m => m end)) f;
         Fputc "010"%char f; Fflush f; Unlock].
Proof.
  intros Hmu Hf. destruct L as [[fp] mu]; cbn in *. subst.
  by destruct a.
Qed.

Lemma acts_open l L f :
  mu_ L = false → fp_ (file_ L) = Some f →
  ∃ tr,
    acts l L
    = (if existsb throws l
       then Throws "Intentional exception after writing" else Ok) L tr ∧
    written f tr = lines (performed l) ∧
    ∀ open, f ∈ open → safe open tr ∧ streams_after open tr = open.
Proof.
  intros Hmu Hf. induction l as [|a l (tr & E & Hw & Hs)].
  { exists []. by cbn. }
  cbn [acts existsb]. rewrite (act_open a L f Hmu Hf).
  destruct a as [m|m]; cbn [throws orb].
  - rewrite E. eexists. split; [by destruct (existsb throws l)|].
    split.
    + cbn. rewrite !decide_True by done. by rewrite Hw.
    + intros open Hin. cbn. destruct (Hs open Hin). done.
  - eexists. split; [done|]. split.
    + cbn. rewrite !decide_True by done. done.
    + intros open Hin. by cbn.
Qed.

(** After [close] the handle is null for good: closing or destroying it
    again calls nothing, so no stream is closed twice, and [write_line]
    throws "File is closed" without touching the C library. *)
Theorem closed_handle_stays_closed h line :
  fp_ (close h).1 = None ∧
  close (close h).1 = ((close h).1, []) ∧
  FileHandle_delete (close h).1 = ((close h).1, []) ∧
  write_line line (close h).1 = Throws "File is closed" (close h).1 [] ∧
  ((close h).2 = [] ∨ ∃ f, fp_ h = Some f ∧ (close h).2 = [Fclose f]).
Proof.
  unfold FileHandle_delete, write_line, close.
  destruct h as [[f|]]; cbn; split_and!; eauto.
Qed.

(** Over any sequence of constructions, moves, writes and destructions of
    handles, every [fputs], [fputc], [fflush] and [fclose] is on a stream
    that is open at that moment: no stream is closed twice or used after
    its [fclose]; no two handles ever hold the same stream, and the
    streams still open at the end are exactly those some handle holds. *)
Theorem handles_used_safely ops :
  run_ok ops empty_store →
  safe ∅ (run ops empty_store).2 ∧
  unique_owner (run ops empty_store).1 ∧
  ∀ f, f ∈ streams_after ∅ (run ops empty_store).2
       ↔ owned (run ops empty_store).1 f.
Proof.
  intros Hok.
  assert (tracks empty_store ∅) as Htr.
  { split; [by intros i j f [=]|]. intros f. split.
    - by intros ?%not_elem_of_empty.
    - by intros [i [=]]. }
  destruct (run_tracks ops empty_store ∅ Htr Hok) as [Hs [Hu Ho]]. done.
Qed.

(** Move assignment never loses the stream it moves: afterwards [this]
    holds the stream [other] held and that stream has not been closed,
    also when both are the same object; between two objects the source is
    left null and the stream the target held before is closed. *)
Theorem move_assign_keeps_moved_stream (σ : store) this other f :
  unique_owner σ → fp_ (σ other) = Some f →
  fp_ ((move_assign this other σ).1 this) = Some f ∧
  (Fclose f ∉ (move_assign this other σ).2) ∧
  (this ≠ other →
   fp_ ((move_assign this other σ).1 other) = None ∧
   (move_assign this other σ).2
   = match fp_ (σ this) with Some g => [Fclose g] | None => [] end).
Proof.
  intros Huniq Ho. unfold move_assign.
  case_decide as Hne; cbn.
  - unfold close. destruct (fp_ (σ this)) as [g|] eqn:Ht; cbn.
    + rewrite !insert_fp. repeat case_decide; try done. cbn.
      split_and!; [done| |done].
      intros [[= <-]|[]%elem_of_nil]%elem_of_cons.
      by specialize (Huniq _ _ _ Ht Ho).
    + rewrite !insert_fp. repeat case_decide; try done. cbn.
      split_and!; [done| |done]. by intros ?%elem_of_nil.
  - assert (this = other) as -> by (by destruct (decide (this = other))).
    split_and!; [done| |done]. by intros ?%elem_of_nil.
Qed.

(** [log] and [log_then_throw] release the mutex on every path.  With the
    file open, [log] writes the message and a newline, flushes, and
    returns; [log_then_throw] does the same and then throws, the line
    already flushed.  With the file closed both throw "File is closed". In
    each case the logger is left as it was, its mutex free. *)
Theorem log_exception_safety msg L :
  mu_ L = false →
  (∀ f, fp_ (file_ L) = Some f →
     log msg L
     = Ok L [Lock; Fputs (c_str msg) f; Fputc "010"%char f; Fflush f; Unlock] ∧
     log_then_throw msg L
     = Throws "Intentional exception after writing" L
         [Lock; Fputs (c_str msg) f; Fputc "010"%char f; Fflush f; Unlock]) ∧
  (fp_ (file_ L) = None →
     log msg L = Throws "File is closed" L [Lock; Unlock] ∧
     log_then_throw msg L = Throws "File is closed" L [Lock; Unlock]).
Proof.
  intros Hmu. destruct L as [[fp] mu]; cbn in *. subst. split.
  - by intros f ->.
  - by intros ->.
Qed.

(** A scope that owns a logger: the calls up to and including the first
    [log_then_throw] are made and no others; the stream gets exactly their
    messages, one per line, in order; the scope ends normally or with that
    exception; and the file, opened first, is closed last and once, on
    either path.  When [fopen] fails the constructor throws and no other
    call is made. *)
Theorem session_writes_and_closes path f l :
  (session path (Some f) l).1
  = (if existsb throws l
     then Exception "Intentional exception after writing" else Normally) ∧
  written f (session path (Some f) l).2 = lines (performed l) ∧
  safe ∅ (session path (Some f) l).2 ∧
  streams_after ∅ (session path (Some f) l).2 = ∅ ∧
  head (session path (Some f) l).2 = Some (Fopen path "a" (Some f)) ∧
  last (session path (Some f) l).2 = Some (Fclose f) ∧
  session path None l
  = (Exception "Failed to open file", [Fopen path "a" None]).
Proof.
  unfold session, Logger_new, Logger_delete; cbn.
  set (L := {| file_ := {| fp_ := Some f |}; mu_ := false |}).
  destruct (acts_open l L f eq_refl eq_refl) as (tr & E & Hw & Hs).
  destruct (Hs ({[f]} : gset stream)) as [Hsafe Hafter];
    [by apply elem_of_singleton|].
  assert (
    written f (Fopen path "a" (Some f) :: tr ++ [Fclose f])
    = lines (performed l) ∧
    safe ∅ (Fopen path "a" (Some f) :: tr ++ [Fclose f]) ∧
    streams_after ∅ (Fopen path "a" (Some f) :: tr ++ [Fclose f]) = ∅ ∧
    last (Fopen path "a" (Some f) :: tr ++ [Fclose f]) = Some (Fclose f))
    as (Hg1 & Hg2 & Hg3 & Hg4).
  { split_and!.
    - cbn. rewrite written_app, Hw. cbn. by rewrite append_empty_r.
    - cbn. split; [apply not_elem_of_empty|].
      rewrite union_empty_l_L, safe_app.
      split; [done|]. rewrite Hafter. cbn. split; [|done].
      by apply elem_of_singleton.
    - cbn. rewrite union_empty_l_L, streams_after_app, Hafter. cbn.
      apply difference_diag_L.
    - by rewrite app_comm_cons, last_snoc. }
  rewrite E. destruct (existsb throws l); cbn [fst snd app]; split_and!; done.
Qed.
End LoggerFacts.

Lemma handles_used_safely_witness :
  RaiiLogger.run_ok
    [RaiiLogger.Construct 0 "app.log" "a" (Some 7%nat);
     RaiiLogger.MoveConstruct 1 0; RaiiLogger.WriteLine 1 "hello";
     RaiiLogger.MoveAssign 0 1; RaiiLogger.Destroy 1; RaiiLogger.Destroy 0]
    RaiiLogger.empty_store ∧
  RaiiLogger.safe ∅
    (RaiiLogger.run
       [RaiiLogger.Construct 0 "app.log" "a" (Some 7%nat);
        RaiiLogger.MoveConstruct 1 0; RaiiLogger.WriteLine 1 "hello";
        RaiiLogger.MoveAssign 0 1; RaiiLogger.Destroy 1; RaiiLogger.Destroy 0]
       RaiiLogger.empty_store).2.
Proof.
  assert (RaiiLogger.run_ok
    [RaiiLogger.Construct 0 "app.log" "a" (Some 7%nat);
     RaiiLogger.MoveConstruct 1 0; RaiiLogger.WriteLine 1 "hello";
     RaiiLogger.MoveAssign 0 1; RaiiLogger.Destroy 1; RaiiLogger.Destroy 0]
    RaiiLogger.empty_store) as Hok.
  { cbn. split_and!; try done. intros f _ [i Hi]. discriminate Hi. }
  split; [exact Hok|].
  apply (handles_used_safely _ Hok).
Defined.

Lemma move_assign_keeps_moved_stream_witness :
  RaiiLogger.unique_owner
    (<[1%nat := {| RaiiLogger.fp_ := Some 7%nat |}]> RaiiLogger.empty_store) ∧
  RaiiLogger.fp_
    ((RaiiLogger.move_assign 1 1
        (<[1%nat := {| RaiiLogger.fp_ := Some 7%nat |}]>
           RaiiLogger.empty_store)).1 1%nat) = Some 7%nat ∧
  (RaiiLogger.Fclose 7%nat
   ∉ (RaiiLogger.move_assign 1 1
        (<[1%nat := {| RaiiLogger.fp_ := Some 7%nat |}]>
           RaiiLogger.empty_store)).2).
Proof.
  assert (RaiiLogger.unique_owner
    (<[1%nat := {| RaiiLogger.fp_ := Some 7%nat |}]> RaiiLogger.empty_store))
    as Hu.
  { intros i j f. unfold insert, fn_insert.
    destruct (decide (1%nat = i)) as [<-|?], (decide (1%nat = j)) as [<-|?];
      cbn; congruence. }
  split; [exact Hu|].
  destruct (move_assign_keeps_moved_stream _ 1%nat 1%nat 7%nat Hu eq_refl)
    as (H1 & H2 & _).
  split; [exact H1|exact H2].
Defined.

Lemma log_exception_safety_witness :
  RaiiLogger.mu_
    {| RaiiLogger.file_ := {| RaiiLogger.fp_ := Some 7%nat |};
       RaiiLogger.mu_ := false |} = false ∧
  RaiiLogger.log_then_throw "about to throw"
    {| RaiiLogger.file_ := {| RaiiLogger.fp_ := Some 7%nat |};
       RaiiLogger.mu_ := false |}
  = RaiiLogger.Throws "Intentional exception after writing"
      {| RaiiLogger.file_ := {| RaiiLogger.fp_ := Some 7%nat |};
         RaiiLogger.mu_ := false |}
      [RaiiLogger.Lock; RaiiLogger.Fputs "about to throw" 7%nat;
       RaiiLogger.Fputc "010"%char 7%nat; RaiiLogger.Fflush 7%nat;
       RaiiLogger.Unlock].
Proof.
  split; [reflexivity|].
  destruct (log_exception_safety "about to throw"
              {| RaiiLogger.file_ := {| RaiiLogger.fp_ := Some 7%nat |};
                 RaiiLogger.mu_ := false |} eq_refl) as [Hopen _].
  exact (proj2 (Hopen 7%nat eq_refl)).
Defined.
